(** * Weighted lottery selection: [src/utils/lottery.ts] and the copy of its
    loop inside [src/components/NameScrolling.tsx].

    The development has four parts:
    - the JavaScript primitives the code uses ([reduce], [splice], indexing,
      [Math.random]);
    - a value-level embedding of [weightedRandomSelection] (arrays as lists)
      and of the loop that the [NameScrolling] effect runs;
    - a store-level embedding of [weightedRandomSelection], in which arrays
      are references into a store, so that the spread copy and the in-place
      [splice] and [push] are visible;
    - the properties of the selector.

    Numbers.  Ticket counts and [count] are integers ([Z]).  In the modules
    [Lottery], [NameScrolling] and [Ref] the value of [Math.random()] and the
    running value [random] of the scan are rationals ([Q]) and the
    arithmetic is exact.  The source computes on doubles: the module
    [Double] has the sum, the scan and the round on binary64, and
    [double_totalWeight_exact] and [double_scan_exact] show that the two
    agree when the weights are not negative and sum to less than 2^53 and
    [random] is a double in that range.  The properties that depend on the
    arithmetic carry that bound; the others hold whatever index a round
    selects. *)

From Corelib Require Import SpecFloat.
From Stdlib Require Import ZArith QArith Lia Lqa List Permutation.
From stdpp Require Import base option list strings gmap.

Open Scope Z_scope.

(** ** Data *)

(** Modelled from the spec: the [Guide] interface of [src/types], which is not
    among the sources.  A candidate has an identity, display attributes and a
    ticket count; the selector reads [totalTickets] only. *)
Record Guide : Type := mkGuide {
  id : nat;
  name : string;
  totalTickets : Z
}.

#[global] Instance Guide_eq_dec : EqDecision Guide.
Proof. solve_decision. Defined.

(** ** JavaScript primitives *)

Module JS.

(** [arr.reduce(f, init)]: a left fold in array order. *)
Definition reduce {A B : Type} (f : B -> A -> B) (init : B) (arr : list A) : B :=
  fold_left f arr init.

(** [arr.splice(start, deleteCount)] for a non-negative integer [start]: the
    removed elements and the array that is left.  [take] and [drop] clamp as
    [splice] does when [start] or [start + deleteCount] is past the end. *)
Definition splice {A : Type} (arr : list A) (start deleteCount : nat)
  : list A * list A :=
  (take deleteCount (drop start arr),
   take start arr ++ drop (start + deleteCount) arr).

(** [arr[i]]: [None] stands for [undefined]. *)
Definition index {A : Type} (arr : list A) (i : nat) : option A := arr !! i.

(** The random source: the values that successive calls of [Math.random()]
    return.  A call returns the head and leaves the tail. *)
Definition Rng : Type := nat -> Q.

Definition Math_random (rng : Rng) : Q * Rng :=
  (rng O, fun n => rng (S n)).

End JS.

(** ** [src/utils/lottery.ts], arrays as values *)

Module Lottery.

(** [availableGuides.reduce((sum, guide) => sum + guide.totalTickets, 0)],
    as an exact sum; on doubles it is [Double.totalWeight]. *)
Definition totalWeight (availableGuides : list Guide) : Z :=
  JS.reduce (fun sum guide => sum + totalTickets guide) 0 availableGuides.

(** The inner [for] loop, from index [j] on; [rest] is
    [availableGuides.slice(j)].  [Some j] is a [break] at [j], [None] is the
    loop running off the end of the array.  The subtraction is exact; on
    doubles the loop is [Double.scan]. *)
Fixpoint scan (random : Q) (j : nat) (rest : list Guide) : option nat :=
  match rest with
  | [] => None
  | guide :: rest' =>
      let random := (random - inject_Z (totalTickets guide))%Q in
      if Qle_bool random 0 then Some j else scan random (S j) rest'
  end.

(** [let selectedIndex = 0; for (...) { ... selectedIndex = j; break; }] *)
Definition selectedIndex (random : Q) (availableGuides : list Guide) : nat :=
  default O (scan random O availableGuides).

(** The body of the outer loop for the value [u] of [Math.random()]: the
    winner ([None] when [splice(...)[0]] is [undefined]) and the pool that is
    left.  The product is exact; on doubles the body is [Double.round]. *)
Definition round (availableGuides : list Guide) (u : Q)
  : option Guide * list Guide :=
  let random := (u * inject_Z (totalWeight availableGuides))%Q in
  let k := selectedIndex random availableGuides in
  let '(removed, availableGuides') := JS.splice availableGuides k 1 in
  (JS.index removed 0, availableGuides').

(** The outer loop; [n] is the number of values of [i] that are still below
    [count].  The result is [winners], the pool that is left and the random
    source after the calls made. *)
Fixpoint rounds (n : nat) (availableGuides : list Guide)
    (winners : list (option Guide)) (rng : JS.Rng)
  : list (option Guide) * list Guide * JS.Rng :=
  match n with
  | O => (winners, availableGuides, rng)
  | S n' =>
      if (0 <? length availableGuides)%nat then
        let '(u, rng') := JS.Math_random rng in
        let '(winner, availableGuides') := round availableGuides u in
        rounds n' availableGuides' (winners ++ [winner]) rng'
      else (winners, availableGuides, rng)
  end.

(** [weightedRandomSelection(guides, count)] with the random source [rng].
    A [count] below 1 leaves no value of [i] below it. *)
Definition weightedRandomSelection (guides : list Guide) (count : Z)
    (rng : JS.Rng) : list (option Guide) :=
  let availableGuides := guides in
  let winners := [] in
  (rounds (Z.to_nat count) availableGuides winners rng).1.1.

End Lottery.

(** ** The selection inside the effect of [src/components/NameScrolling.tsx] *)

Module NameScrolling.

Definition totalWeight (availableGuides : list Guide) : Z :=
  JS.reduce (fun sum guide => sum + totalTickets guide) 0 availableGuides.

Fixpoint scan (random : Q) (j : nat) (rest : list Guide) : option nat :=
  match rest with
  | [] => None
  | guide :: rest' =>
      let random := (random - inject_Z (totalTickets guide))%Q in
      if Qle_bool random 0 then Some j else scan random (S j) rest'
  end.

(** One turn of the loop over [i]. *)
Definition round (availableGuides : list Guide) (u : Q)
  : option Guide * list Guide :=
  let random := (u * inject_Z (totalWeight availableGuides))%Q in
  let k := default O (scan random O availableGuides) in
  let '(removed, availableGuides') := JS.splice availableGuides k 1 in
  (JS.index removed 0, availableGuides').

Fixpoint rounds (n : nat) (availableGuides : list Guide)
    (winners : list (option Guide)) (rng : JS.Rng)
  : list (option Guide) * list Guide * JS.Rng :=
  match n with
  | O => (winners, availableGuides, rng)
  | S n' =>
      if (0 <? length availableGuides)%nat then
        let '(u, rng') := JS.Math_random rng in
        let '(winner, availableGuides') := round availableGuides u in
        rounds n' availableGuides' (winners ++ [winner]) rng'
      else (winners, availableGuides, rng)
  end.

(** The loop of the effect: [winners] as it is handed to
    [setSelectedWinners]. *)
Definition selectWinners (guides : list Guide) (winnerCount : Z)
    (rng : JS.Rng) : list (option Guide) :=
  let winners := [] in
  let availableGuides := guides in
  (rounds (Z.to_nat winnerCount) availableGuides winners rng).1.1.

(** The effect up to [setSelectedWinners(winners)]: [None] when the guard
    [if (!isScrolling || guides.length === 0) return;] leaves it. *)
Definition effect (isScrolling : bool) (guides : list Guide)
    (winnerCount : Z) (rng : JS.Rng) : option (list (option Guide)) :=
  if negb isScrolling || (length guides =? 0)%nat then None
  else Some (selectWinners guides winnerCount rng).

End NameScrolling.

(** ** [src/utils/lottery.ts], arrays as references

    An array is a reference into a store; an element is a [Guide] or
    [undefined].  A computation threads the store and the random source, and
    either returns a value or throws a [TypeError]; the store it leaves is kept
    in both cases. *)

Module Ref.

Definition loc : Type := nat.

(** A value stored in an array; [None] is [undefined]. *)
Abbreviation JsVal := (option Guide).

Record State : Type := mkState {
  store : gmap loc (list JsVal);
  random_source : JS.Rng
}.

(** [None] as a result is a thrown [TypeError]. *)
Definition M (A : Type) : Type := State -> option A * State.

Definition ret {A : Type} (a : A) : M A := fun s => (Some a, s).

Definition bind {A B : Type} (m : M A) (f : A -> M B) : M B :=
  fun s => match m s with
           | (Some a, s') => f a s'
           | (None, s') => (None, s')
           end.

Definition throw {A : Type} : M A := fun s => (None, s).

#[global] Instance M_ret : MRet M := @ret.
#[global] Instance M_bind : MBind M := fun A B f m => bind m f.

(** A new array with the elements [arr], at a reference not in use. *)
Definition alloc (arr : list JsVal) : M loc :=
  fun s =>
    let l := fresh (dom (store s)) in
    (Some l, mkState (<[l := arr]> (store s)) (random_source s)).

(** The elements of the array at [l].  A reference that the store does not
    hold has nothing to read; the computation stops there as it does for a
    [TypeError]. *)
Definition get (l : loc) : M (list JsVal) :=
  fun s => match store s !! l with
           | Some arr => (Some arr, s)
           | None => (None, s)
           end.

(** The array at [l] updated in place. *)
Definition set (l : loc) (arr : list JsVal) : M unit :=
  fun s => (Some tt, mkState (<[l := arr]> (store s)) (random_source s)).

Definition Math_random : M Q :=
  fun s =>
    let '(u, rng') := JS.Math_random (random_source s) in
    (Some u, mkState (store s) rng').

(** [v.totalTickets]: a [TypeError] when [v] is [undefined]. *)
Definition totalTickets_of (v : JsVal) : M Z :=
  match v with
  | Some guide => ret (totalTickets guide)
  | None => throw
  end.

(** [arr.reduce(f, init)] for a callback that may throw. *)
Fixpoint reduce {A B : Type} (f : B -> A -> M B) (init : B) (arr : list A)
  : M B :=
  match arr with
  | [] => ret init
  | x :: arr' => acc ← f init x; reduce f acc arr'
  end.

Definition totalWeight (availableGuides : loc) : M Z :=
  arr ← get availableGuides;
  reduce (fun sum guide => t ← totalTickets_of guide; ret (sum + t)) 0 arr.

(** The inner loop from index [j] on, over the elements from [j] on; the
    loop does not write to the store. *)
Fixpoint scan (random : Q) (j : nat) (rest : list JsVal) : M (option nat) :=
  match rest with
  | [] => ret None
  | v :: rest' =>
      t ← totalTickets_of v;
      let random := (random - inject_Z t)%Q in
      if Qle_bool random 0 then ret (Some j) else scan random (S j) rest'
  end.

(** [availableGuides.splice(start, 1)[0]]: the array is updated in place and
    the first removed element, or [undefined], is the value. *)
Definition splice_first (availableGuides : loc) (start : nat) : M JsVal :=
  arr ← get availableGuides;
  let '(removed, arr') := JS.splice arr start 1 in
  set availableGuides arr';;
  ret (default None (JS.index removed 0)).

(** [winners.push(winner)] *)
Definition push (winners : loc) (winner : JsVal) : M unit :=
  arr ← get winners;
  set winners (arr ++ [winner]).

Fixpoint rounds (n : nat) (availableGuides winners : loc) : M unit :=
  match n with
  | O => ret tt
  | S n' =>
      arr ← get availableGuides;
      if (0 <? length arr)%nat then
        totalWeight ← totalWeight availableGuides;
        u ← Math_random;
        let random := (u * inject_Z totalWeight)%Q in
        arr ← get availableGuides;
        found ← scan random O arr;
        let selectedIndex := default O found in
        winner ← splice_first availableGuides selectedIndex;
        push winners winner;;
        rounds n' availableGuides winners
      else ret tt
  end.

(** [weightedRandomSelection(guides, count)]: [guides] is the caller's array,
    [[...guides]] a new array with its elements, [[]] a new empty array; the
    value is the reference of [winners]. *)
Definition weightedRandomSelection (guides : loc) (count : Z) : M loc :=
  arr ← get guides;
  availableGuides ← alloc arr;
  winners ← alloc [];
  rounds (Z.to_nat count) availableGuides winners;;
  ret winners.

(** [m] leaves the array at [l] as it is, whether it returns or throws. *)
Definition preserves {A : Type} (l : loc) (m : M A) : Prop :=
  forall s, store (m s).2 !! l = store s !! l.

End Ref.

(** ** [src/utils/lottery.ts] on doubles

    The arithmetic of the source is that of IEEE 754 binary64: here a number
    is a [spec_float] and the operations are those of the specification of
    binary64 ([prec = 53], [emax = 1024]), which round to nearest, ties to
    even. *)

Module Double.

Definition prec : Z := 53.
Definition emax : Z := 1024.

Definition add : spec_float -> spec_float -> spec_float := SFadd prec emax.
Definition sub : spec_float -> spec_float -> spec_float := SFsub prec emax.
Definition mul : spec_float -> spec_float -> spec_float := SFmul prec emax.

(** The double nearest to an integer: the number an integer ticket count
    is. *)
Definition of_Z (z : Z) : spec_float := binary_normalize prec emax z 0 false.

(** The rational that a finite double is; 0 for the others. *)
Definition value (x : spec_float) : Q :=
  match x with
  | S754_finite s m e =>
      let q := if 0 <=? e then inject_Z (Zpos m * 2 ^ e)
               else Zpos m # Z.to_pos (2 ^ (- e)) in
      if s then (- q)%Q else q
  | _ => 0%Q
  end.

(** [availableGuides.reduce((sum, guide) => sum + guide.totalTickets, 0)] *)
Definition totalWeight (availableGuides : list Guide) : spec_float :=
  JS.reduce (fun sum guide => add sum (of_Z (totalTickets guide))) (of_Z 0)
    availableGuides.

(** The inner [for] loop from index [j] on. *)
Fixpoint scan (random : spec_float) (j : nat) (rest : list Guide)
  : option nat :=
  match rest with
  | [] => None
  | guide :: rest' =>
      let random := sub random (of_Z (totalTickets guide)) in
      if SFleb random (of_Z 0) then Some j else scan random (S j) rest'
  end.

Definition selectedIndex (random : spec_float) (availableGuides : list Guide)
  : nat :=
  default O (scan random O availableGuides).

(** The body of the outer loop for the value [u] of [Math.random()]. *)
Definition round (availableGuides : list Guide) (u : spec_float)
  : option Guide * list Guide :=
  let random := mul u (totalWeight availableGuides) in
  let k := selectedIndex random availableGuides in
  let '(removed, availableGuides') := JS.splice availableGuides k 1 in
  (JS.index removed 0, availableGuides').

(** A double that is 0 or a positive double in canonical form, and the
    rational it is. *)
Definition represents (x : spec_float) (r : Q) : Prop :=
  match x with
  | S754_zero _ => (r == 0)%Q
  | S754_finite false m e =>
      canonical_mantissa prec emax m e = true /\ (r == value x)%Q
  | _ => False
  end.

End Double.

(** ** The partition formulation of one round *)

Module Partition.

(** The contiguous sub-intervals of [[0, totalWeight)], in pool order: the
    first starts at [lo], each is as long as its candidate's weight, and each
    holds its lower end and not its upper end, so that together they cover
    [[0, totalWeight)] and no point twice. *)
Fixpoint subIntervals (lo : Z) (pool : list Guide) : list (Z * Z) :=
  match pool with
  | [] => []
  | guide :: pool' =>
      (lo, lo + totalTickets guide)
        :: subIntervals (lo + totalTickets guide) pool'
  end.

Definition contains (iv : Z * Z) (r : Q) : bool :=
  Qle_bool (inject_Z iv.1) r && negb (Qle_bool (inject_Z iv.2) r).

(** The index, counted from [i], of the first sub-interval that holds [r]. *)
Fixpoint locate (r : Q) (i : nat) (ivs : list (Z * Z)) : option nat :=
  match ivs with
  | [] => None
  | iv :: ivs' => if contains iv r then Some i else locate r (S i) ivs'
  end.

Definition partitionIndex (r : Q) (pool : list Guide) : option nat :=
  locate r O (subIntervals 0 pool).

(** The sum of the first [i] weights: the lower end of sub-interval [i] and
    the upper end of sub-interval [i - 1]. *)
Definition prefixWeight (i : nat) (pool : list Guide) : Z :=
  Lottery.totalWeight (take i pool).

(** The values of [r] for which the scan stops at [i]: up to and including
    the upper end, and above the lower end; index 0 takes 0 as well. *)
Definition scanInterval (i : nat) (pool : list Guide) (r : Q) : Prop :=
  match i with
  | O => (r <= inject_Z (prefixWeight 1 pool))%Q
  | S _ => (inject_Z (prefixWeight i pool) < r)%Q
           /\ (r <= inject_Z (prefixWeight (S i) pool))%Q
  end.

End Partition.

(** ** The reveal sequence of [src/components/NameScrolling.tsx]

    The component's state cells, its timers and its callbacks.  A callback is
    a function of the values its closure holds (the [selectedWinners] and the
    [prizeCategory] of the render that made it, and its own [timeLeft] and
    [winnerIndex]) and of the state cells it sets.  Delays are not modelled:
    a pending timer may fire at any step. *)

Module Component.

(** The values of [phase]. *)
Inductive Phase : Type := Countdown | Revealing | Waiting | Complete.

(** Modelled from the spec: the [PrizeCategory] interface of [src/types],
    which is not among the sources; the component reads [id], [name] and
    [icon]. *)
Record PrizeCategory : Type := mkPrizeCategory {
  category_id : string;
  category_name : string;
  category_icon : string
}.

(** [getCountdownDuration(category)]; [None] is [null] or [undefined]. *)
Definition getCountdownDuration (category : option PrizeCategory) : Z :=
  match category with
  | None => 15
  | Some c =>
      if String.eqb (category_id c) "iron-box" then 7
      else if String.eqb (category_id c) "soundbars" then 10
      else if String.eqb (category_id c) "washing-machine" then 15
      else if String.eqb (category_id c) "tablets" then 20
      else if String.eqb (category_id c) "refrigerator" then 60
      else 15
  end.

(** The cells of [useState]; [None] in [currentWinner] is [null] or
    [undefined]. *)
Record View : Type := mkView {
  phase : Phase;
  countdown : Z;
  currentWinnerIndex : nat;
  selectedWinners : list (option Guide);
  currentWinner : option Guide
}.

(** The state of the first render. *)
Definition initialView : View := mkView Countdown 15 O [] None.

Definition setPhase (p : Phase) (v : View) : View :=
  mkView p (countdown v) (currentWinnerIndex v) (selectedWinners v)
    (currentWinner v).

Definition setCountdown (n : Z) (v : View) : View :=
  mkView (phase v) n (currentWinnerIndex v) (selectedWinners v)
    (currentWinner v).

Definition setCurrentWinnerIndex (i : nat) (v : View) : View :=
  mkView (phase v) (countdown v) i (selectedWinners v) (currentWinner v).

Definition setSelectedWinners (ws : list (option Guide)) (v : View) : View :=
  mkView (phase v) (countdown v) (currentWinnerIndex v) ws (currentWinner v).

Definition setCurrentWinner (w : option Guide) (v : View) : View :=
  mkView (phase v) (countdown v) (currentWinnerIndex v) (selectedWinners v) w.

(** A pending timer with what its callback's closure holds:
    [countdownInterval] with [timeLeft], the 3000 ms timeout set at the
    reveal, and the 2000 ms timeout set before [onComplete]. *)
Inductive Timer : Type :=
  | CountdownInterval (timeLeft : Z) (winnerIndex : nat)
      (selectedWinners : list (option Guide))
  | RevealTimeout (winnerIndex : nat) (selectedWinners : list (option Guide))
  | CompleteTimeout (selectedWinners : list (option Guide)).

(** The component between two events: its state cells, its pending timers
    and the arguments of the calls of [onComplete] made so far. *)
Record Config : Type := mkConfig {
  view : View;
  timers : list Timer;
  onComplete_calls : list (list (option Guide))
}.

(** [startCountdownForWinner(winnerIndex)] of a render whose state holds
    [selectedWinners] and whose props hold [prizeCategory]. *)
Definition startCountdownForWinner (prizeCategory : option PrizeCategory)
    (selectedWinners : list (option Guide)) (winnerIndex : nat) (c : Config)
  : Config :=
  let v := setCurrentWinnerIndex winnerIndex (view c) in
  let v := setPhase Countdown v in
  let duration := getCountdownDuration prizeCategory in
  let v := setCountdown duration v in
  let timeLeft := duration in
  mkConfig v
    (timers c ++ [CountdownInterval timeLeft winnerIndex selectedWinners])
    (onComplete_calls c).

(** The callback of [setInterval]: the state it leaves and the timers that
    stand in its place ([clearInterval] leaves the timeout alone). *)
Definition onInterval (timeLeft : Z) (winnerIndex : nat)
    (selectedWinners : list (option Guide)) (v : View) : View * list Timer :=
  let timeLeft := timeLeft - 1 in
  let v := setCountdown timeLeft v in
  if timeLeft <=? 0 then
    let v := setPhase Revealing v in
    let v := setCurrentWinner (default None (selectedWinners !! winnerIndex)) v in
    (v, [RevealTimeout winnerIndex selectedWinners])
  else (v, [CountdownInterval timeLeft winnerIndex selectedWinners]).

(** The callback of the 3000 ms timeout. *)
Definition onRevealTimeout (winnerIndex : nat)
    (selectedWinners : list (option Guide)) (v : View) : View * list Timer :=
  if Z.of_nat winnerIndex =? Z.of_nat (length selectedWinners) - 1 then
    (setPhase Complete v, [CompleteTimeout selectedWinners])
  else (setPhase Waiting v, []).

(** Timer [k] fires: its callback runs and the timers it leaves take its
    place; the callback of the 2000 ms timeout calls [onComplete]. *)
Definition fire (k : nat) (c : Config) : Config :=
  match timers c !! k with
  | None => c
  | Some (CountdownInterval timeLeft winnerIndex ws) =>
      let '(v, ts) := onInterval timeLeft winnerIndex ws (view c) in
      mkConfig v (take k (timers c) ++ ts ++ drop (S k) (timers c))
        (onComplete_calls c)
  | Some (RevealTimeout winnerIndex ws) =>
      let '(v, ts) := onRevealTimeout winnerIndex ws (view c) in
      mkConfig v (take k (timers c) ++ ts ++ drop (S k) (timers c))
        (onComplete_calls c)
  | Some (CompleteTimeout ws) =>
      mkConfig (view c) (take k (timers c) ++ drop (S k) (timers c))
        (onComplete_calls c ++ [ws])
  end.


(** The effect, run after the render that shows the state of [c]: the
    selection, the four state updates and [startCountdownForWinner(0)].  The
    function called is the one of that render, and the [selectedWinners] in
    its body is that render's constant, which [setSelectedWinners] does not
    change.  The result is the configuration and the random source that are
    left. *)
Definition runEffect (isScrolling : bool) (guides : list Guide)
    (winnerCount : Z) (prizeCategory : option PrizeCategory) (c : Config)
    (rng : JS.Rng) : Config * JS.Rng :=
  if negb isScrolling || (length guides =? 0)%nat then (c, rng)
  else
    let '(winners, _, rng') :=
      NameScrolling.rounds (Z.to_nat winnerCount) guides [] rng in
    let render := view c in
    let v := setSelectedWinners winners (view c) in
    let v := setCurrentWinnerIndex O v in
    let v := setPhase Countdown v in
    let v := setCountdown (getCountdownDuration prizeCategory) v in
    (startCountdownForWinner prizeCategory (selectedWinners render) O
       (mkConfig v (timers c) (onComplete_calls c)),
     rng').

(** What the render shows: the [Next Winner] button
    ([phase === 'waiting' && currentWinner]). *)
Definition nextButtonShown (v : View) : bool :=
  match phase v, currentWinner v with
  | Waiting, Some _ => true
  | _, _ => false
  end.

(** The winner's card ([phase === 'revealing' && currentWinner], and the
    same under ['waiting']). *)
Definition winnerCardShown (v : View) : option Guide :=
  match phase v with
  | Revealing | Waiting => currentWinner v
  | _ => None
  end.


(** One winner's turn: the ticks of the countdown, as many as its duration,
    and the 3000 ms timeout; the timer of the turn is timer 0. *)
Definition turn (prizeCategory : option PrizeCategory) (c : Config) : Config :=
  fire 0 (Nat.iter (Z.to_nat (getCountdownDuration prizeCategory)) (fire 0) c).



End Component.

Definition gA := mkGuide 1 "A" 1.
Definition gB := mkGuide 2 "B" 1.
Definition gC := mkGuide 3 "C" 2.
Definition gZ := mkGuide 4 "Z" 0.

Example run_ABC :
  Lottery.weightedRandomSelection [gA; gB; gC] 2 (fun _ => 1 # 2)
  = [Some gB; Some gC].
Proof. vm_compute. reflexivity. Qed.

Example run_ref_ABC :
  let s := Ref.mkState {[ 7%nat := [Some gA; Some gB; Some gC] ]} (fun _ => 1 # 2) in
  let '(r, s') := Ref.weightedRandomSelection 7%nat 2 s in
  (r, Ref.store s' !! 7%nat, r ≫= fun l => Ref.store s' !! l)
  = (Some 9%nat, Some [Some gA; Some gB; Some gC], Some [Some gB; Some gC]).
Proof. vm_compute. reflexivity. Qed.

(** ** Facts about the primitives *)

Section Primitives.

Context {A : Type}.

Lemma splice_in_range (arr : list A) (k : nat) :
  (k < length arr)%nat ->
  exists w l1 l2,
    arr = l1 ++ w :: l2 /\ length l1 = k /\ JS.splice arr k 1 = ([w], l1 ++ l2).
Proof.
  intros Hk.
  destruct (lookup_lt_is_Some_2 arr k Hk) as [w Hw].
  exists w, (take k arr), (drop (S k) arr).
  split; [ symmetry; apply take_drop_middle; exact Hw | ].
  split; [ rewrite length_take; lia | ].
  unfold JS.splice.
  rewrite (drop_S _ _ _ Hw). simpl. rewrite take_0.
  f_equal. f_equal. f_equal. lia.
Qed.

Lemma splice_out_of_range (arr : list A) (k : nat) :
  (length arr <= k)%nat -> JS.splice arr k 1 = ([], arr).
Proof.
  intros Hk. unfold JS.splice.
  rewrite (drop_ge arr k) by lia.
  rewrite (drop_ge arr (k + 1)) by lia.
  rewrite (take_ge arr k) by lia.
  simpl. rewrite app_nil_r. reflexivity.
Qed.

End Primitives.

(** ** Facts about the value-level selector *)

Section LotteryFacts.

Import Lottery.

Lemma totalWeight_from (acc : Z) (l : list Guide) :
  fold_left (fun sum guide => sum + totalTickets guide) l acc
  = acc + totalWeight l.
Proof.
  unfold totalWeight, JS.reduce.
  revert acc. induction l as [| g l IH]; intros acc; simpl; [ lia | ].
  rewrite (IH (acc + totalTickets g)), (IH (0 + totalTickets g)). lia.
Qed.

Lemma totalWeight_nil : totalWeight [] = 0.
Proof. reflexivity. Qed.

Lemma totalWeight_cons (g : Guide) (l : list Guide) :
  totalWeight (g :: l) = totalTickets g + totalWeight l.
Proof.
  unfold totalWeight at 1, JS.reduce. simpl.
  rewrite totalWeight_from. lia.
Qed.

Lemma totalWeight_app (l1 l2 : list Guide) :
  totalWeight (l1 ++ l2) = totalWeight l1 + totalWeight l2.
Proof.
  induction l1 as [| g l1 IH]; simpl.
  - rewrite totalWeight_nil. lia.
  - rewrite !totalWeight_cons, IH. lia.
Qed.

Lemma totalWeight_nonneg (l : list Guide) :
  Forall (fun g => 0 <= totalTickets g) l -> 0 <= totalWeight l.
Proof.
  induction 1 as [| g l Hg _ IH].
  - rewrite totalWeight_nil. lia.
  - rewrite totalWeight_cons. lia.
Qed.

(** A [break] happens inside the part of the array that is scanned. *)
Lemma scan_bounds (rest : list Guide) :
  forall random j k,
    scan random j rest = Some k -> (j <= k < j + length rest)%nat.
Proof.
  induction rest as [| g rest IH]; intros random j k; simpl.
  - discriminate.
  - destruct (Qle_bool _ 0).
    + intros [= <-]. lia.
    + intros H. apply IH in H. lia.
Qed.

Lemma selectedIndex_lt (random : Q) (pool : list Guide) :
  pool <> [] -> (selectedIndex random pool < length pool)%nat.
Proof.
  intros Hne. unfold selectedIndex.
  destruct (scan random 0 pool) as [k |] eqn:E; simpl.
  - apply scan_bounds in E. lia.
  - destruct pool; [ congruence | simpl; lia ].
Qed.

(** One round on a pool that is not empty takes the candidate at the selected
    index out of the pool and leaves the others as they stand. *)
Lemma round_inv (pool : list Guide) (u : Q) :
  pool <> [] ->
  exists w l1 l2,
    pool = l1 ++ w :: l2
    /\ length l1
       = selectedIndex (u * inject_Z (totalWeight pool))%Q pool
    /\ round pool u = (Some w, l1 ++ l2).
Proof.
  intros Hne.
  pose proof (selectedIndex_lt (u * inject_Z (totalWeight pool))%Q pool Hne)
    as Hlt.
  destruct (splice_in_range pool _ Hlt) as (w & l1 & l2 & Hp & Hl & Hs).
  exists w, l1, l2. repeat split; try assumption.
  unfold round. rewrite Hs. reflexivity.
Qed.

Lemma rounds_nil (n : nat) (winners : list (option Guide)) (rng : JS.Rng) :
  rounds n [] winners rng = (winners, [], rng).
Proof. destruct n; reflexivity. Qed.

Lemma rounds_step (n : nat) (pool : list Guide)
    (winners : list (option Guide)) (rng : JS.Rng)
    (w : option Guide) (pool' : list Guide) :
  pool <> [] ->
  round pool (rng O) = (w, pool') ->
  rounds (S n) pool winners rng
  = rounds n pool' (winners ++ [w]) (fun k => rng (S k)).
Proof.
  intros Hne Hr. cbn [rounds].
  destruct pool as [| g pool]; [ congruence | ].
  cbn [length Nat.ltb Nat.leb JS.Math_random]. rewrite Hr. reflexivity.
Qed.

Lemma rounds_length (n : nat) :
  forall pool winners rng,
    length (rounds n pool winners rng).1.1
    = (length winners + Nat.min n (length pool))%nat.
Proof.
  induction n as [| n IH]; intros pool winners rng; [ simpl; lia | ].
  destruct (decide (pool = [])) as [-> | Hne].
  - rewrite rounds_nil. simpl. lia.
  - destruct (round_inv pool (rng O) Hne) as (w & l1 & l2 & Hp & _ & Hr).
    rewrite (rounds_step _ _ _ _ _ _ Hne Hr), IH.
    rewrite Hp, !length_app. cbn [length]. lia.
Qed.

(** The winners drawn are candidates taken out of the pool, each position of
    the pool at most once: the pool is the drawn candidates and the pool that
    is left, up to order. *)
Lemma rounds_picks (n : nat) :
  forall pool winners rng,
    exists picked,
      (rounds n pool winners rng).1.1 = winners ++ (Some <$> picked)
      /\ Permutation pool (picked ++ (rounds n pool winners rng).1.2).
Proof.
  induction n as [| n IH]; intros pool winners rng.
  - exists []. simpl. rewrite app_nil_r. split; reflexivity.
  - destruct (decide (pool = [])) as [-> | Hne].
    + rewrite rounds_nil. exists []. simpl. rewrite app_nil_r.
      split; reflexivity.
    + destruct (round_inv pool (rng O) Hne) as (w & l1 & l2 & Hp & _ & Hr).
      rewrite (rounds_step _ _ _ _ _ _ Hne Hr).
      destruct (IH (l1 ++ l2) (winners ++ [Some w]) (fun k => rng (S k)))
        as (picked & Hw & Hperm).
      exists (w :: picked). split.
      * rewrite Hw, <- app_assoc. reflexivity.
      * rewrite Hp at 1. simpl. rewrite <- Hperm.
        symmetry. apply Permutation_middle.
Qed.

End LotteryFacts.

(** ** The selector's properties *)

Section LotteryProperties.

Import Lottery.

(** C1.  For a count that is not negative the winner list has
    [min count (length guides)] elements: all of the pool when the count is
    above its size, none when the pool is empty or the count is 0.  The
    function is total, so every such call returns a list. *)
Theorem winners_length_min (guides : list Guide) (count : Z) (rng : JS.Rng) :
  0 <= count ->
  Z.of_nat (length (weightedRandomSelection guides count rng))
  = Z.min count (Z.of_nat (length guides))
  /\ (Z.of_nat (length guides) < count ->
      length (weightedRandomSelection guides count rng) = length guides)
  /\ (guides = [] -> weightedRandomSelection guides count rng = [])
  /\ (count = 0 -> weightedRandomSelection guides count rng = []).
Proof.
  intros Hc.
  assert (Hlen : length (weightedRandomSelection guides count rng)
                 = Nat.min (Z.to_nat count) (length guides)).
  { unfold weightedRandomSelection. rewrite rounds_length. reflexivity. }
  repeat split.
  - rewrite Hlen. lia.
  - intros Hgt. rewrite Hlen. lia.
  - intros ->. apply nil_length_inv. rewrite Hlen. simpl. lia.
  - intros ->. reflexivity.
Qed.

Lemma winners_length_min_witness :
  0 <= 5
  /\ Z.of_nat (length (weightedRandomSelection [gA; gB; gC] 5 (fun _ => 1 # 2)))
     = Z.min 5 (Z.of_nat (length [gA; gB; gC])).
Proof.
  split; [ lia | ].
  apply (winners_length_min [gA; gB; gC] 5 (fun _ => 1 # 2)). lia.
Defined.

(** C2, as the code has it.  Every element of the winner list is a candidate
    of the input list, and the winners are taken from distinct positions of
    it: the input is, up to order, the winners followed by the candidates not
    drawn.  So a candidate appears among the winners at most as often as in
    the input, and an input without repeated candidates gives winners
    without repeated candidates. *)
Theorem winners_distinct_members (guides : list Guide) (count : Z)
    (rng : JS.Rng) :
  let winners := weightedRandomSelection guides count rng in
  (forall w, In w winners -> exists g, w = Some g /\ In g guides)
  /\ (exists picked rest,
        winners = Some <$> picked /\ Permutation guides (picked ++ rest))
  /\ (NoDup guides -> NoDup winners).
Proof.
  intros winners. subst winners. unfold weightedRandomSelection.
  destruct (rounds_picks (Z.to_nat count) guides [] rng)
    as (picked & Hw & Hperm).
  simpl in Hw. rewrite Hw.
  split; [ | split ].
  - intros w Hin. apply list_elem_of_In, list_elem_of_fmap in Hin.
    destruct Hin as (g & -> & Hg).
    exists g. split; [ reflexivity | ].
    apply list_elem_of_In. rewrite Hperm. apply elem_of_app. left. exact Hg.
  - eexists picked, _. split; [ reflexivity | exact Hperm ].
  - intros Hnd. rewrite Hperm in Hnd. apply NoDup_app in Hnd.
    destruct Hnd as (Hnd & _).
    apply (NoDup_fmap_2 Some). exact Hnd.
Qed.

Lemma winners_distinct_members_witness :
  NoDup [gA; gB; gC]
  /\ NoDup (weightedRandomSelection [gA; gB; gC] 2 (fun _ => 1 # 2)).
Proof.
  assert (Hnd : NoDup [gA; gB; gC]).
  { repeat constructor; rewrite ?list_elem_of_In; simpl;
      intuition discriminate. }
  split; [ exact Hnd | ].
  exact (proj2 (proj2 (winners_distinct_members [gA; gB; gC] 2
                         (fun _ => 1 # 2))) Hnd).
Defined.

(** C2, as the claim states it, fails on a list that holds a candidate
    twice: on the list A, A, C with a count of 3 and [Math.random()]
    returning 1/2 each time, the winners are A, C, A. *)
Lemma repeated_candidate_wins_twice :
  weightedRandomSelection [gA; gA; gC] 3 (fun _ => 1 # 2)
  = [Some gA; Some gC; Some gA]
  /\ ~ NoDup (weightedRandomSelection [gA; gA; gC] 3 (fun _ => 1 # 2)).
Proof.
  assert (E : weightedRandomSelection [gA; gA; gC] 3 (fun _ => 1 # 2)
              = [Some gA; Some gC; Some gA]) by (vm_compute; reflexivity).
  split; [ exact E | ].
  rewrite E. intros Hnd. apply NoDup_cons in Hnd. destruct Hnd as [Hnot _].
  apply Hnot. apply list_elem_of_In. simpl. tauto.
Qed.

(** C5.  On a pool that is not empty and whose weights are all 0 the total
    weight is 0, the scan stops at index 0 for every draw, the round takes the
    first candidate and leaves the others, and a selection of one winner
    returns the first candidate alone. *)
Theorem zero_pool_selects_first (g : Guide) (rest : list Guide) (u : Q) :
  Forall (fun c => totalTickets c = 0) (g :: rest) ->
  totalWeight (g :: rest) = 0
  /\ selectedIndex (u * inject_Z (totalWeight (g :: rest)))%Q (g :: rest) = O
  /\ round (g :: rest) u = (Some g, rest)
  /\ (forall rng, weightedRandomSelection (g :: rest) 1 rng = [Some g]).
Proof.
  intros Hz.
  assert (Htot : forall l, Forall (fun c => totalTickets c = 0) l ->
                           totalWeight l = 0).
  { induction 1 as [| c l Hc _ IH]; [ reflexivity | ].
    rewrite totalWeight_cons, Hc, IH. reflexivity. }
  assert (Hg : totalTickets g = 0) by (inversion Hz; assumption).
  assert (Hscan : forall v, scan (v * inject_Z (totalWeight (g :: rest)))%Q
                              O (g :: rest) = Some O).
  { intros v. rewrite (Htot _ Hz). cbn [scan]. rewrite Hg.
    assert (Hle : Qle_bool (v * inject_Z 0 - inject_Z 0) 0 = true).
    { apply Qle_bool_iff.
      assert (E : (v * inject_Z 0 - inject_Z 0 == 0)%Q)
        by (unfold inject_Z; ring).
      rewrite E. apply Qle_refl. }
    rewrite Hle. reflexivity. }
  assert (Hround : forall v, round (g :: rest) v = (Some g, rest)).
  { intros v. unfold round, selectedIndex. rewrite Hscan. reflexivity. }
  split; [ apply Htot, Hz | ].
  split; [ unfold selectedIndex; rewrite Hscan; reflexivity | ].
  split; [ apply Hround | ].
  intros rng. unfold weightedRandomSelection.
  change (Z.to_nat 1) with 1%nat.
  rewrite (rounds_step 0 (g :: rest) [] rng (Some g) rest);
    [ reflexivity | discriminate | apply Hround ].
Qed.

Lemma zero_pool_selects_first_witness :
  Forall (fun c => totalTickets c = 0) [gZ; mkGuide 5 "Y" 0]
  /\ weightedRandomSelection [gZ; mkGuide 5 "Y" 0] 1 (fun _ => 3 # 4)
     = [Some gZ].
Proof.
  split; [ repeat constructor | ].
  apply (zero_pool_selects_first gZ [mkGuide 5 "Y" 0] 0).
  repeat constructor.
Defined.

(** C7.  A round on a pool that is not empty takes one candidate out and
    leaves the others in the order they had: the pool is one shorter, its
    total weight goes down by the winner's weight, and so the total weight
    is strictly smaller or the pool is one candidate shorter. *)
Theorem round_shrinks_pool (pool : list Guide) (u : Q) :
  pool <> [] ->
  exists w before after,
    pool = before ++ w :: after
    /\ round pool u = (Some w, before ++ after)
    /\ (length (round pool u).2 + 1 = length pool)%nat
    /\ totalWeight (round pool u).2 = totalWeight pool - totalTickets w
    /\ (totalWeight (round pool u).2 < totalWeight pool
        \/ (length (round pool u).2 + 1 = length pool)%nat).
Proof.
  intros Hne.
  destruct (round_inv pool u Hne) as (w & l1 & l2 & Hp & _ & Hr).
  exists w, l1, l2. rewrite Hr. cbn [snd].
  assert (Hlen : (length (l1 ++ l2) + 1 = length pool)%nat).
  { rewrite Hp, !length_app. cbn [length]. lia. }
  repeat split; try assumption.
  - rewrite Hp. rewrite !totalWeight_app, totalWeight_cons. lia.
  - right. exact Hlen.
Qed.

Lemma round_shrinks_pool_witness :
  [gA; gB; gC] <> []
  /\ exists w before after,
       [gA; gB; gC] = before ++ w :: after
       /\ round [gA; gB; gC] (1 # 2) = (Some w, before ++ after)
       /\ (length (round [gA; gB; gC] (1 # 2)).2 + 1
           = length [gA; gB; gC])%nat
       /\ totalWeight (round [gA; gB; gC] (1 # 2)).2
          = totalWeight [gA; gB; gC] - totalTickets w
       /\ (totalWeight (round [gA; gB; gC] (1 # 2)).2
           < totalWeight [gA; gB; gC]
           \/ (length (round [gA; gB; gC] (1 # 2)).2 + 1
               = length [gA; gB; gC])%nat).
Proof.
  split; [ discriminate | ].
  apply (round_shrinks_pool [gA; gB; gC] (1 # 2)). discriminate.
Defined.

(** C10.  On a pool that is not empty the selected index is inside the pool
    for every value of [random] and whatever the weights are (it is 0 when the
    scan ends without a [break]), and the round's winner is the candidate
    stored at that index, never [undefined]. *)
Theorem round_winner_defined (pool : list Guide) (random u : Q) :
  pool <> [] ->
  (selectedIndex random pool < length pool)%nat
  /\ (scan random O pool = None -> selectedIndex random pool = O)
  /\ exists g,
       pool !! selectedIndex (u * inject_Z (totalWeight pool))%Q pool = Some g
       /\ (round pool u).1 = Some g.
Proof.
  intros Hne.
  split; [ apply selectedIndex_lt, Hne | ].
  split; [ intros Hs; unfold selectedIndex; rewrite Hs; reflexivity | ].
  destruct (round_inv pool u Hne) as (w & l1 & l2 & Hp & Hl & Hr).
  exists w. rewrite Hr. split; [ | reflexivity ].
  rewrite <- Hl. rewrite Hp at 1. apply list_lookup_middle. reflexivity.
Qed.

Lemma round_winner_defined_witness :
  [gA; gB] <> []
  /\ (selectedIndex 7 [gA; gB] < length [gA; gB])%nat.
Proof.
  split; [ discriminate | ].
  apply (round_winner_defined [gA; gB] 7 0). discriminate.
Defined.

End LotteryProperties.

(** ** The scan and the partition *)

Section ScanFacts.

Import Lottery Partition.

Lemma Qle_bool_cases (x y : Q) :
  (Qle_bool x y = true /\ (x <= y)%Q) \/ (Qle_bool x y = false /\ (y < x)%Q).
Proof.
  destruct (Qle_bool x y) eqn:E.
  - left. split; [ reflexivity | apply Qle_bool_iff, E ].
  - right. split; [ reflexivity | ].
    apply Qnot_le_lt. intros H. apply Qle_bool_iff in H. congruence.
Qed.

Lemma prefixWeight_0 (pool : list Guide) : prefixWeight 0 pool = 0.
Proof. unfold prefixWeight. rewrite take_0. reflexivity. Qed.

Lemma prefixWeight_cons (i : nat) (g : Guide) (pool : list Guide) :
  prefixWeight (S i) (g :: pool) = totalTickets g + prefixWeight i pool.
Proof. unfold prefixWeight. cbn [take]. apply totalWeight_cons. Qed.

(** Sub-interval [i] is as long as candidate [i]'s weight. *)
Lemma prefixWeight_S (i : nat) (g : Guide) (pool : list Guide) :
  pool !! i = Some g ->
  prefixWeight (S i) pool = prefixWeight i pool + totalTickets g.
Proof.
  intros Hg. unfold prefixWeight.
  rewrite (take_S_r _ _ _ Hg), totalWeight_app, totalWeight_cons,
    totalWeight_nil.
  lia.
Qed.

Lemma prefixWeight_all (i : nat) (pool : list Guide) :
  (length pool <= i)%nat -> prefixWeight i pool = totalWeight pool.
Proof. intros H. unfold prefixWeight. rewrite take_ge by lia. reflexivity. Qed.

Lemma prefixWeight_mono (pool : list Guide) :
  Forall (fun g => 0 <= totalTickets g) pool ->
  forall i i', (i <= i')%nat -> prefixWeight i pool <= prefixWeight i' pool.
Proof.
  induction 1 as [| g pool Hg Hpool IH]; intros i i' Hle.
  - unfold prefixWeight. rewrite !take_nil. lia.
  - destruct i as [| i].
    + rewrite prefixWeight_0. apply totalWeight_nonneg.
      apply Forall_take. constructor; [ exact Hg | assumption ].
    + destruct i' as [| i']; [ lia | ].
      rewrite !prefixWeight_cons. specialize (IH i i'). lia.
Qed.

(** With weights that are not negative, on a pool that is not empty and for a
    value of [random] up to the total weight, the scan stops; where it stops,
    [random] is above the weight before that index and at most the weight up
    to and including it. *)
Lemma scan_stops (rest : list Guide) :
  Forall (fun g => 0 <= totalTickets g) rest ->
  forall random j,
    rest <> [] ->
    (random <= inject_Z (totalWeight rest))%Q ->
    exists i,
      scan random j rest = Some (j + i)%nat
      /\ (i < length rest)%nat
      /\ (random <= inject_Z (prefixWeight (S i) rest))%Q
      /\ ((0 < i)%nat -> (inject_Z (prefixWeight i rest) < random)%Q).
Proof.
  induction 1 as [| g rest Hg Hrest IH]; intros random j Hne Hle;
    [ congruence | ].
  cbn [scan].
  destruct (Qle_bool_cases (random - inject_Z (totalTickets g)) 0)
    as [[-> Hc] | [-> Hc]].
  - exists O. rewrite Nat.add_0_r. split; [ reflexivity | ].
    split; [ simpl; lia | ].
    split; [ | lia ].
    rewrite prefixWeight_cons, prefixWeight_0, Z.add_0_r. lra.
  - rewrite totalWeight_cons, inject_Z_plus in Hle.
    assert (Hne' : rest <> []).
    { intros ->. rewrite totalWeight_nil in Hle.
      change (inject_Z 0) with 0%Q in Hle. lra. }
    destruct (IH (random - inject_Z (totalTickets g))%Q (S j) Hne')
      as (i & Hs & Hi & Hup & Hlo); [ lra | ].
    exists (S i). rewrite Hs.
    split; [ f_equal; lia | ].
    split; [ simpl; lia | ].
    split.
    + rewrite prefixWeight_cons, inject_Z_plus. lra.
    + intros _. rewrite prefixWeight_cons, inject_Z_plus.
      destruct i as [| i].
      * rewrite prefixWeight_0. change (inject_Z 0) with 0%Q. lra.
      * specialize (Hlo ltac:(lia)). lra.
Qed.

(** The stopping intervals do not overlap. *)
Lemma scanInterval_unique (pool : list Guide) (r : Q) (i i' : nat) :
  Forall (fun g => 0 <= totalTickets g) pool ->
  scanInterval i pool r -> scanInterval i' pool r -> i = i'.
Proof.
  intros Hnn Hi Hi'.
  assert (Hlt : forall a b, (a < b)%nat ->
            scanInterval a pool r -> scanInterval b pool r -> False).
  { intros a b Hab Ha Hb.
    assert (Hup : (r <= inject_Z (prefixWeight (S a) pool))%Q)
      by (destruct a; [ exact Ha | apply Ha ]).
    destruct b as [| b]; [ lia | ]. destruct Hb as [Hlo _].
    pose proof (prefixWeight_mono pool Hnn (S a) (S b) ltac:(lia)) as Hm.
    rewrite Zle_Qle in Hm. lra. }
  destruct (Nat.lt_trichotomy i i') as [H | [H | H]];
    [ exfalso; eauto | exact H | exfalso; eauto ].
Qed.

Lemma contains_ext (iv : Z * Z) (r r' : Q) :
  (r == r')%Q -> contains iv r = contains iv r'.
Proof. intros E. unfold contains. rewrite E. reflexivity. Qed.

Lemma locate_ext (ivs : list (Z * Z)) :
  forall r r' i, (r == r')%Q -> locate r i ivs = locate r' i ivs.
Proof.
  induction ivs as [| iv ivs IH]; intros r r' i E; [ reflexivity | ].
  cbn [locate]. rewrite (contains_ext iv r r' E), (IH r r' (S i) E).
  reflexivity.
Qed.

(** Away from the upper ends of the sub-intervals the scan and the
    partition find the same index. *)
Lemma locate_scan (rest : list Guide) :
  forall random lo j,
    (0 <= random)%Q ->
    (forall i, (0 < i <= length rest)%nat ->
               ~ (random == inject_Z (prefixWeight i rest))%Q) ->
    locate (random + inject_Z lo) j (subIntervals lo rest)
    = scan random j rest.
Proof.
  induction rest as [| g rest IH]; intros random lo j H0 Hb; [ reflexivity | ].
  cbn [subIntervals locate scan]. unfold contains. cbn [fst snd].
  assert (Hne : ~ (random == inject_Z (totalTickets g))%Q).
  { intros E. apply (Hb 1%nat); [ simpl; lia | ].
    rewrite prefixWeight_cons, prefixWeight_0, Z.add_0_r. exact E. }
  rewrite inject_Z_plus.
  destruct (Qle_bool_cases (inject_Z lo) (random + inject_Z lo))
    as [[-> _] | [_ Hc]]; [ | lra ].
  destruct (Qle_bool_cases (random - inject_Z (totalTickets g)) 0)
    as [[-> Hc] | [-> Hc]].
  - destruct (Qle_bool_cases (inject_Z lo + inject_Z (totalTickets g))
                (random + inject_Z lo)) as [[_ Hd] | [-> _]];
      [ | reflexivity ].
    exfalso. apply Hne. lra.
  - destruct (Qle_bool_cases (inject_Z lo + inject_Z (totalTickets g))
                (random + inject_Z lo)) as [[-> _] | [_ Hd]]; [ | lra ].
    cbn [negb andb].
    rewrite <- (IH (random - inject_Z (totalTickets g))%Q
                   (lo + totalTickets g) (S j)).
    + apply locate_ext. rewrite inject_Z_plus. ring.
    + lra.
    + intros i Hi E. apply (Hb (S i)); [ simpl; lia | ].
      rewrite prefixWeight_cons, inject_Z_plus. lra.
Qed.

(** The partition formulation is well defined: for weights that are not
    negative every [r] in [[0, totalWeight)] lies in exactly one
    sub-interval, the one [partitionIndex] returns. *)
Lemma locate_finds (rest : list Guide) :
  forall r lo j,
    (inject_Z lo <= r)%Q ->
    (r < inject_Z (lo + totalWeight rest))%Q ->
    exists i,
      locate r j (subIntervals lo rest) = Some (j + i)%nat
      /\ (i < length rest)%nat
      /\ (inject_Z (lo + prefixWeight i rest) <= r)%Q
      /\ (r < inject_Z (lo + prefixWeight (S i) rest))%Q.
Proof.
  induction rest as [| g rest IH]; intros r lo j Hlo Hhi.
  - rewrite totalWeight_nil, Z.add_0_r in Hhi. lra.
  - cbn [subIntervals locate]. unfold contains. cbn [fst snd].
    destruct (Qle_bool_cases (inject_Z lo) r) as [[-> _] | [_ Hc]]; [ | lra ].
    destruct (Qle_bool_cases (inject_Z (lo + totalTickets g)) r)
      as [[-> Hc] | [-> Hc]]; cbn [negb andb].
    + rewrite totalWeight_cons, Z.add_assoc in Hhi.
      destruct (IH r (lo + totalTickets g) (S j) Hc Hhi)
        as (i & Hl & Hi & Ha & Hb).
      exists (S i). rewrite Hl, !prefixWeight_cons, !Z.add_assoc.
      split; [ f_equal; lia | ].
      split; [ simpl; lia | ].
      split; assumption.
    + exists O. rewrite Nat.add_0_r, prefixWeight_0, prefixWeight_cons,
        prefixWeight_0, !Z.add_0_r.
      split; [ reflexivity | ].
      split; [ simpl; lia | ].
      split; assumption.
Qed.

Lemma partitionIndex_unique (pool : list Guide) (r : Q) :
  Forall (fun g => 0 <= totalTickets g) pool ->
  (0 <= r)%Q ->
  (r < inject_Z (totalWeight pool))%Q ->
  exists i,
    partitionIndex r pool = Some i
    /\ (i < length pool)%nat
    /\ (inject_Z (prefixWeight i pool) <= r)%Q
    /\ (r < inject_Z (prefixWeight (S i) pool))%Q
    /\ forall i', (inject_Z (prefixWeight i' pool) <= r)%Q ->
                  (r < inject_Z (prefixWeight (S i') pool))%Q -> i' = i.
Proof.
  intros Hnn H0 Hlt.
  destruct (locate_finds pool r 0 O H0 Hlt) as (i & Hl & Hi & Ha & Hb).
  rewrite !Z.add_0_l in *. rewrite Nat.add_0_l in Hl.
  exists i. repeat split; try assumption.
  intros i' Ha' Hb'.
  destruct (Nat.lt_trichotomy i' i) as [H | [H | H]]; [ | exact H | ].
  - pose proof (prefixWeight_mono pool Hnn (S i') i ltac:(lia)) as Hm.
    rewrite Zle_Qle in Hm. lra.
  - pose proof (prefixWeight_mono pool Hnn (S i) i' ltac:(lia)) as Hm.
    rewrite Zle_Qle in Hm. lra.
Qed.

End ScanFacts.

(** ** Doubles and exact arithmetic

    The operations of binary64 on the numbers the selector meets.  A number
    that has at most 53 significant bits is a double, and rounding returns
    it; so sums of ticket counts that stay below 2^53, and the differences
    the scan takes from a value of [random] below 2^53, are exact as long as
    they are above 0, and a difference that is not above 0 is not above 0
    after rounding either. *)

Section DoubleRounding.

Import Lottery Double.

Lemma digits2_pos_size (m : positive) : digits2_pos m = Pos.size m.
Proof. induction m as [m IH | m IH |]; cbn; congruence. Qed.

Lemma digits2_log2 (m : positive) :
  Zpos (digits2_pos m) = Z.log2 (Zpos m) + 1.
Proof.
  rewrite digits2_pos_size.
  destruct m as [m | m |]; cbn [Z.log2 Pos.size]; lia.
Qed.

Lemma iter_xO_pow (d m : positive) :
  Zpos (Pos.iter xO m d) = Zpos m * 2 ^ Zpos d.
Proof.
  induction d as [| d IH] using Pos.peano_ind.
  - cbn [Pos.iter]. lia.
  - rewrite Pos.iter_succ, Pos2Z.inj_succ, Z.pow_succ_r by lia.
    rewrite Pos2Z.inj_xO, IH. lia.
Qed.

Lemma digits2_shift (m : positive) (k : Z) :
  0 <= k ->
  Z.log2 (Zpos m * 2 ^ k) = Z.log2 (Zpos m) + k.
Proof. intros Hk. rewrite Z.log2_mul_pow2 by lia. lia. Qed.

Lemma iter_pos_nat {A : Type} (f : A -> A) (p : positive) :
  forall x, SpecFloat.iter_pos f p x = Nat.iter (Pos.to_nat p) f x.
Proof.
  induction p as [p IH | p IH |]; intros x; cbn [SpecFloat.iter_pos].
  - rewrite !IH, Pos2Nat.inj_xI.
    rewrite <- Nat.iter_succ_r, <- Nat.iter_add. f_equal. lia.
  - rewrite !IH, Pos2Nat.inj_xO, <- Nat.iter_add. f_equal. lia.
  - reflexivity.
Qed.

Lemma shr_exact_nat (n : nat) :
  forall m,
    Nat.iter n shr_1 (Build_shr_record (Zpos m * 2 ^ Z.of_nat n) false false)
    = Build_shr_record (Zpos m) false false.
Proof.
  induction n as [| n IH]; intros m.
  - cbn [Nat.iter]. change (2 ^ Z.of_nat 0) with 1. rewrite Z.mul_1_r. reflexivity.
  - rewrite Nat.iter_succ_r.
    replace (Zpos m * 2 ^ Z.of_nat (S n)) with (Zpos (xO m) * 2 ^ Z.of_nat n).
    2:{ rewrite Nat2Z.inj_succ, Z.pow_succ_r by lia. lia. }
    assert (E : shr_1 (Build_shr_record (Zpos m~0 * 2 ^ Z.of_nat n) false false)
         = Build_shr_record (Zpos m * 2 ^ Z.of_nat n) false false).
    { destruct n as [| n].
      - change (2 ^ Z.of_nat 0) with 1. rewrite !Z.mul_1_r. reflexivity.
      - rewrite Nat2Z.inj_succ, Z.pow_succ_r by lia.
        assert (P : 0 < 2 ^ Z.of_nat n) by (apply Z.pow_pos_nonneg; lia).
        destruct (2 ^ Z.of_nat n) as [| q | q] eqn:Eq; try lia.
        cbn. reflexivity. }
    rewrite E. apply IH.
Qed.


Lemma canonical_iff (m : positive) (e : Z) :
  canonical_mantissa prec emax m e = true
  <-> fexp prec emax (Z.log2 (Zpos m) + 1 + e) = e.
Proof.
  unfold canonical_mantissa. rewrite digits2_log2. apply Z.eqb_eq.
Qed.

Lemma binary_round_aux_canonical (s : bool) (m : positive) (c : Z) :
  canonical_mantissa prec emax m c = true ->
  c <= emax - prec ->
  binary_round_aux prec emax s (Zpos m) c loc_Exact = S754_finite s m c.
Proof.
  intros Hc Hle. pose proof Hc as Hc'. unfold canonical_mantissa in Hc'.
  apply Z.eqb_eq in Hc'.
  unfold binary_round_aux, shr_fexp.
  cbn [Zdigits2 shr_record_of_loc]. rewrite Hc', Z.sub_diag.
  cbn [shr shr_m loc_of_shr_record round_nearest_even Zdigits2
       shr_record_of_loc].
  rewrite Hc', Z.sub_diag. cbn [shr shr_m].
  apply Z.leb_le in Hle. rewrite Hle. reflexivity.
Qed.

Lemma binary_round_shl (s : bool) (m : positive) (g c : Z) :
  c = fexp prec emax (Z.log2 (Zpos m) + 1 + g) ->
  c <= g ->
  c <= emax - prec ->
  binary_round prec emax s m g
  = S754_finite s (Z.to_pos (Zpos m * 2 ^ (g - c))) c
  /\ canonical_mantissa prec emax (Z.to_pos (Zpos m * 2 ^ (g - c))) c = true.
Proof.
  intros Hc Hcg Hle.
  assert (Hpos : 0 < Zpos m * 2 ^ (g - c)).
  { apply Z.mul_pos_pos; [ lia | apply Z.pow_pos_nonneg; lia ]. }
  assert (Hcan : canonical_mantissa prec emax
                   (Z.to_pos (Zpos m * 2 ^ (g - c))) c = true).
  { apply canonical_iff. rewrite Z2Pos.id by exact Hpos.
    rewrite digits2_shift by lia.
    replace (Z.log2 (Zpos m) + (g - c) + 1 + c)
      with (Z.log2 (Zpos m) + 1 + g) by lia.
    symmetry. exact Hc. }
  split; [ | exact Hcan ].
  unfold binary_round. rewrite digits2_log2, <- Hc.
  unfold shl_align.
  destruct (c - g) as [| d | d] eqn:Ed; try lia.
  - replace (g - c) with 0 in * by lia.
    change (2 ^ 0) with 1 in *. rewrite Z.mul_1_r in *. cbn [Z.to_pos] in *.
    replace g with c in * by lia.
    apply binary_round_aux_canonical; assumption.
  - assert (Em : Pos.iter xO m d = Z.to_pos (Zpos m * 2 ^ (g - c))).
    { apply Pos2Z.inj. rewrite Z2Pos.id by exact Hpos.
      rewrite iter_xO_pow. f_equal. f_equal. lia. }
    rewrite Em. apply binary_round_aux_canonical; assumption.
Qed.

Lemma binary_round_shr (s : bool) (m m' : positive) (g c : Z) :
  c = fexp prec emax (Z.log2 (Zpos m) + 1 + g) ->
  g < c ->
  c <= emax - prec ->
  Zpos m = Zpos m' * 2 ^ (c - g) ->
  binary_round prec emax s m g = S754_finite s m' c
  /\ canonical_mantissa prec emax m' c = true.
Proof.
  intros Hc Hgc Hle Hm.
  assert (Hcan : canonical_mantissa prec emax m' c = true).
  { apply canonical_iff.
    assert (E : Z.log2 (Zpos m) = Z.log2 (Zpos m') + (c - g)).
    { rewrite Hm. apply digits2_shift. lia. }
    replace (Z.log2 (Zpos m') + 1 + c) with (Z.log2 (Zpos m) + 1 + g) by lia.
    symmetry. exact Hc. }
  split; [ | exact Hcan ].
  unfold binary_round. rewrite digits2_log2, <- Hc.
  unfold shl_align.
  destruct (c - g) as [| d | d] eqn:Ed; try lia.
  unfold binary_round_aux, shr_fexp.
  cbn [Zdigits2 shr_record_of_loc]. rewrite digits2_log2, <- Hc, Ed.
  cbn [shr]. rewrite iter_pos_nat.
  rewrite Hm, <- (positive_nat_Z d), shr_exact_nat.
  cbn [shr_m loc_of_shr_record round_nearest_even Zdigits2 shr_record_of_loc].
  pose proof Hcan as Hc'. unfold canonical_mantissa in Hc'.
  apply Z.eqb_eq in Hc'.
  replace (g + Z.of_nat (Pos.to_nat d)) with c by (rewrite positive_nat_Z; lia).
  rewrite Hc', Z.sub_diag. cbn [shr shr_m].
  apply Z.leb_le in Hle. rewrite Hle. reflexivity.
Qed.


Lemma shr_1_nonneg (mrs : shr_record) :
  0 <= shr_m mrs -> 0 <= shr_m (shr_1 mrs).
Proof.
  destruct mrs as [m r st]. cbn [shr_m]. intros H.
  destruct m as [| [p | p |] | p]; cbn; lia.
Qed.

Lemma shr_nonneg (mrs : shr_record) (e n : Z) :
  0 <= shr_m mrs -> 0 <= shr_m (shr mrs e n).1.
Proof.
  intros H. unfold shr. destruct n as [| p | p]; cbn [fst]; try exact H.
  rewrite iter_pos_nat.
  induction (Pos.to_nat p) as [| k IH]; [ exact H | ].
  cbn [Nat.iter]. apply shr_1_nonneg, IH.
Qed.

Lemma round_nearest_even_nonneg (m : Z) (l : location) :
  0 <= m -> 0 <= round_nearest_even m l.
Proof.
  intros H. destruct l as [| [ | | ]]; cbn; try lia.
  destruct (Z.even m); lia.
Qed.

Lemma shr_record_of_loc_m (m : Z) (l : location) :
  shr_m (shr_record_of_loc m l) = m.
Proof. destruct l as [| [ | | ]]; reflexivity. Qed.

(** Rounding keeps the sign: a negative number rounds to a double that is
    at most 0. *)
Lemma binary_round_negative (m : positive) (g : Z) :
  SFleb (binary_round prec emax true m g) (S754_zero false) = true.
Proof.
  unfold binary_round.
  destruct (shl_align m g _) as [mz ez].
  unfold binary_round_aux, shr_fexp.
  destruct (shr (shr_record_of_loc (Zpos mz) loc_Exact) ez _)
    as [mrs' e'] eqn:E1.
  destruct (shr (shr_record_of_loc
                   (round_nearest_even (shr_m mrs') (loc_of_shr_record mrs'))
                   loc_Exact) e' _) as [mrs'' e''] eqn:E2.
  assert (H1 : 0 <= shr_m mrs').
  { pose proof (shr_nonneg (shr_record_of_loc (Zpos mz) loc_Exact) ez
                  (fexp prec emax (Zdigits2 (Zpos mz) + ez) - ez)) as H.
    rewrite E1 in H. apply H. cbn. lia. }
  assert (H2 : 0 <= shr_m mrs'').
  { match type of E2 with shr ?a ?b ?c = _ =>
      pose proof (shr_nonneg a b c) as H end.
    rewrite E2 in H. apply H. rewrite shr_record_of_loc_m.
    apply round_nearest_even_nonneg, H1. }
  destruct (shr_m mrs'') as [| q | q]; [ reflexivity | | lia ].
  destruct (e'' <=? emax - prec); reflexivity.
Qed.

Lemma shl_align_fst (m : positive) (e e' : Z) :
  e' <= e -> Zpos (shl_align m e e').1 = Zpos m * 2 ^ (e - e').
Proof.
  intros H. unfold shl_align.
  destruct (e' - e) as [| d | d] eqn:Ed; try lia; cbn [fst].
  - replace (e - e') with 0 by lia. change (2 ^ 0) with 1. lia.
  - rewrite iter_xO_pow. f_equal. f_equal. lia.
Qed.

Lemma fexp_mono (a b : Z) : a <= b -> fexp prec emax a <= fexp prec emax b.
Proof. unfold fexp, emin. lia. Qed.

(** The value of a canonical double with an exponent of at most 0. *)
Lemma value_small (m : positive) (e : Z) :
  e <= 0 ->
  (value (S754_finite false m e) == Zpos m # Z.to_pos (2 ^ (- e)))%Q.
Proof.
  intros He. unfold value.
  destruct (Z.leb_spec 0 e) as [H | H]; [ | reflexivity ].
  replace e with 0 by lia. unfold Qeq. cbn. lia.
Qed.

Lemma pow2_pos (k : Z) : 0 <= k -> 0 < 2 ^ k.
Proof. intros H. apply Z.pow_pos_nonneg; lia. Qed.

(** A positive number [p * 2^ez] that has at most 53 significant bits above
    the exponent the format gives it is a double, and
    [binary_normalize] returns it. *)
Lemma normalize_exact (p : positive) (ez : Z) :
  ez <= 0 ->
  fexp prec emax (Z.log2 (Zpos p) + 1 + ez) <= 0 ->
  (ez < fexp prec emax (Z.log2 (Zpos p) + 1 + ez) ->
   (2 ^ (fexp prec emax (Z.log2 (Zpos p) + 1 + ez) - ez) | Zpos p)) ->
  represents (binary_normalize prec emax (Zpos p) ez false)
    (Zpos p # Z.to_pos (2 ^ (- ez))).
Proof.
  intros Hez Hc Hdiv. cbn [binary_normalize].
  set (c := fexp prec emax (Z.log2 (Zpos p) + 1 + ez)) in *.
  assert (Hle : c <= emax - prec) by (unfold emax, prec; lia).
  destruct (Z.le_gt_cases c ez) as [Hcz | Hcz].
  - destruct (binary_round_shl false p ez c eq_refl Hcz Hle) as [-> Hcan].
    unfold represents. split; [ exact Hcan | ].
    rewrite value_small by lia.
    assert (P1 : 0 < 2 ^ (ez - c)) by (apply pow2_pos; lia).
    assert (P2 : 0 < 2 ^ (- ez)) by (apply pow2_pos; lia).
    assert (P3 : 0 < 2 ^ (- c)) by (apply pow2_pos; lia).
    assert (E : 2 ^ (- c) = 2 ^ (ez - c) * 2 ^ (- ez)).
    { rewrite <- Z.pow_add_r by lia. f_equal. lia. }
    unfold Qeq. cbn [Qnum Qden].
    rewrite !Z2Pos.id by nia. rewrite E. lia.
  - destruct (Hdiv Hcz) as [q Hq].
    assert (P1 : 0 < 2 ^ (c - ez)) by (apply pow2_pos; lia).
    assert (Hqpos : 0 < q) by nia.
    destruct (binary_round_shr false p (Z.to_pos q) ez c eq_refl Hcz Hle)
      as [-> Hcan].
    { rewrite Z2Pos.id by exact Hqpos. exact Hq. }
    unfold represents. split; [ exact Hcan | ].
    rewrite value_small by lia.
    assert (P2 : 0 < 2 ^ (- ez)) by (apply pow2_pos; lia).
    assert (P3 : 0 < 2 ^ (- c)) by (apply pow2_pos; lia).
    assert (E : 2 ^ (- ez) = 2 ^ (c - ez) * 2 ^ (- c)).
    { rewrite <- Z.pow_add_r by lia. f_equal. lia. }
    unfold Qeq. cbn [Qnum Qden].
    rewrite !Z2Pos.id by lia. rewrite Hq, E. lia.
Qed.


Lemma represents_ext (x : spec_float) (r r' : Q) :
  (r == r')%Q -> represents x r -> represents x r'.
Proof.
  intros E. unfold represents.
  destruct x as [s | s | | [|] m e]; try tauto.
  - intros H. rewrite <- E. exact H.
  - intros [Hc H]. split; [ exact Hc | ]. rewrite <- E. exact H.
Qed.

Lemma of_Z_represents (w : Z) :
  0 <= w < 2 ^ 53 -> represents (of_Z w) (inject_Z w).
Proof.
  intros [H0 Hw]. destruct w as [| p | p]; [ reflexivity | | lia ].
  assert (Hl : Z.log2 (Zpos p) < 53) by (apply Z.log2_lt_pow2; lia).
  apply (represents_ext _ (Zpos p # Z.to_pos (2 ^ (- 0)))); [ reflexivity | ].
  apply normalize_exact; [ lia | | ].
  - unfold fexp, emin, prec, emax. lia.
  - unfold fexp, emin, prec, emax. lia.
Qed.

Lemma represents_finite (m : positive) (e : Z) (r : Q) :
  represents (S754_finite false m e) r ->
  (r < inject_Z (2 ^ 53))%Q ->
  e <= 0
  /\ fexp prec emax (Z.log2 (Zpos m) + 1 + e) = e
  /\ (r == Zpos m # Z.to_pos (2 ^ (- e)))%Q
  /\ Zpos m < 2 ^ (53 - e).
Proof.
  intros [Hc Hr] Hlt. apply canonical_iff in Hc.
  assert (He : e <= 0).
  { destruct (Z.le_gt_cases e 0) as [H | H]; [ exact H | exfalso ].
    unfold value in Hr. destruct (Z.leb_spec 0 e) as [_ | H']; [ | lia ].
    rewrite Hr in Hlt. rewrite <- Zlt_Qlt in Hlt.
    assert (Hl : Z.log2 (Zpos m) = 52).
    { unfold fexp, emin, prec, emax in Hc. lia. }
    pose proof (Z.log2_spec (Zpos m) ltac:(lia)) as [Hlo _].
    rewrite Hl in Hlo.
    assert (P : 2 <= 2 ^ e).
    { change 2 with (2 ^ 1) at 1. apply Z.pow_le_mono_r; lia. }
    change (2 ^ 53) with (2 ^ 52 * 2) in Hlt. nia. }
  split; [ exact He | ]. split; [ exact Hc | ].
  assert (Hv : (r == Zpos m # Z.to_pos (2 ^ (- e)))%Q).
  { rewrite Hr. apply value_small, He. }
  split; [ exact Hv | ].
  rewrite Hv in Hlt. unfold Qlt in Hlt. cbn [Qnum Qden inject_Z] in Hlt.
  assert (P : 0 < 2 ^ (- e)) by (apply pow2_pos; lia).
  rewrite Z2Pos.id in Hlt by exact P.
  replace (53 - e) with (53 + - e) by lia.
  rewrite Z.pow_add_r by lia. lia.
Qed.


(** [random - w] on doubles, for a double [random] below 2^53 and an integer
    [w]: the difference is at most 0 exactly when the exact difference is,
    and a difference above 0 is the exact difference. *)
Lemma sub_finite (mx mw : positive) (ex cw w : Z) (r : Q) :
  ex <= 0 ->
  fexp prec emax (Z.log2 (Zpos mx) + 1 + ex) = ex ->
  (r == Zpos mx # Z.to_pos (2 ^ (- ex)))%Q ->
  Zpos mx < 2 ^ (53 - ex) ->
  cw <= 0 ->
  (inject_Z w == Zpos mw # Z.to_pos (2 ^ (- cw)))%Q ->
  (Qle_bool (r - inject_Z w) 0 = true
   /\ SFleb (sub (S754_finite false mx ex) (S754_finite false mw cw))
        (S754_zero false) = true)
  \/ (Qle_bool (r - inject_Z w) 0 = false
      /\ SFleb (sub (S754_finite false mx ex) (S754_finite false mw cw))
           (S754_zero false) = false
      /\ represents (sub (S754_finite false mx ex) (S754_finite false mw cw))
           (r - inject_Z w)).
Proof.
  intros Hex Hcx Hr Hmx Hcw Hw.
  set (ez := Z.min ex cw).
  assert (Hez : ez <= 0) by (unfold ez; lia).
  assert (Hzx : ez <= ex) by (unfold ez; lia).
  assert (Hzw : ez <= cw) by (unfold ez; lia).
  assert (Px : 0 < 2 ^ (- ex)) by (apply pow2_pos; lia).
  assert (Pw : 0 < 2 ^ (- cw)) by (apply pow2_pos; lia).
  assert (Pz : 0 < 2 ^ (- ez)) by (apply pow2_pos; lia).
  assert (Pxz : 0 < 2 ^ (ex - ez)) by (apply pow2_pos; lia).
  assert (Pwz : 0 < 2 ^ (cw - ez)) by (apply pow2_pos; lia).
  assert (Ex : 2 ^ (- ez) = 2 ^ (- ex) * 2 ^ (ex - ez)).
  { rewrite <- Z.pow_add_r by lia. f_equal. lia. }
  assert (Ew : 2 ^ (- ez) = 2 ^ (- cw) * 2 ^ (cw - ez)).
  { rewrite <- Z.pow_add_r by lia. f_equal. lia. }
  assert (Hwz : Zpos mw = w * 2 ^ (- cw)).
  { unfold Qeq in Hw. cbn [Qnum Qden inject_Z] in Hw.
    rewrite Z2Pos.id in Hw by exact Pw. lia. }
  assert (Hw0 : 0 < w) by nia.
  assert (Hdiff : (r - inject_Z w
                   == (Zpos mx * 2 ^ (ex - ez) - Zpos mw * 2 ^ (cw - ez))
                      # Z.to_pos (2 ^ (- ez)))%Q).
  { rewrite Hr. unfold Qeq, Qminus, Qplus, Qopp. cbn [Qnum Qden inject_Z].
    rewrite !Pos2Z.inj_mul, !Z2Pos.id by assumption.
    rewrite Hwz.
    replace (w * 2 ^ (- cw) * 2 ^ (cw - ez)) with (w * 2 ^ (- ez))
      by (rewrite Ew; ring).
    rewrite Ex. ring. }
  assert (Hsub : sub (S754_finite false mx ex) (S754_finite false mw cw)
                 = binary_normalize prec emax
                     (Zpos mx * 2 ^ (ex - ez) - Zpos mw * 2 ^ (cw - ez))
                     ez false).
  { unfold sub, SFsub. fold ez. cbn [cond_Zopp].
    change (fst (shl_align mx ex ez)) with (shl_align mx ex ez).1.
    change (fst (shl_align mw cw ez)) with (shl_align mw cw ez).1.
    rewrite !shl_align_fst by assumption. reflexivity. }
  rewrite Hsub.
  set (M := Zpos mx * 2 ^ (ex - ez) - Zpos mw * 2 ^ (cw - ez)) in *.
  destruct (Qle_bool_cases (r - inject_Z w) 0) as [[Hb Hq] | [Hb Hq]];
    rewrite Hdiff in Hq; unfold Qle, Qlt in Hq; cbn [Qnum Qden] in Hq;
    rewrite Z.mul_1_r in Hq; cbn [Z.mul] in Hq.
  - left. split; [ exact Hb | ].
    destruct M as [| p | p] eqn:EM; [ reflexivity | lia | ].
    apply binary_round_negative.
  - right. split; [ exact Hb | ].
    destruct M as [| p | p] eqn:EM; [ lia | | lia ].
    set (c := fexp prec emax (Z.log2 (Zpos p) + 1 + ez)).
    assert (HX : Z.log2 (Zpos mx * 2 ^ (ex - ez))
                 = Z.log2 (Zpos mx) + (ex - ez))
      by (apply digits2_shift; lia).
    assert (HpX : Z.log2 (Zpos p) <= Z.log2 (Zpos mx) + (ex - ez)).
    { rewrite <- HX. apply Z.log2_le_mono. nia. }
    assert (Hlx : Z.log2 (Zpos mx) < 53 - ex)
      by (apply Z.log2_lt_pow2; lia).
    assert (Hcx' : c <= ex).
    { rewrite <- Hcx. apply fexp_mono. lia. }
    assert (Hc0 : c <= 0) by lia.
    assert (Hrep : represents (binary_normalize prec emax (Zpos p) ez false)
                     (Zpos p # Z.to_pos (2 ^ (- ez)))).
    { apply normalize_exact; [ exact Hez | exact Hc0 | ].
      fold c. intros Hzc. rewrite <- EM.
      apply Z.divide_sub_r.
      - exists (Zpos mx * 2 ^ (ex - c)).
        rewrite <- Z.mul_assoc, <- Z.pow_add_r by lia.
        do 2 f_equal. lia.
      - exists (w * 2 ^ (- c)).
        rewrite Hwz, <- !Z.mul_assoc, <- !Z.pow_add_r by lia.
        do 2 f_equal. lia. }
    split.
    + destruct (binary_normalize prec emax (Zpos p) ez false)
        as [s | s | | [|] m e]; cbn in Hrep; try tauto.
      exfalso. unfold Qeq in Hrep. cbn in Hrep. lia.
    + apply (represents_ext _ _ _ (Qeq_sym _ _ Hdiff)). exact Hrep.
Qed.


Lemma represents_zero_int (s : bool) (a : Z) :
  represents (S754_zero s) (inject_Z a) -> a = 0.
Proof. cbn. unfold Qeq. cbn. lia. Qed.

Lemma represents_finite_pos (m : positive) (e : Z) (r : Q) :
  represents (S754_finite false m e) r -> (0 < r)%Q.
Proof.
  intros [_ Hr]. rewrite Hr. unfold value.
  destruct (Z.leb_spec 0 e) as [He | He]; [ | reflexivity ].
  change 0%Q with (inject_Z 0). rewrite <- Zlt_Qlt.
  apply Z.mul_pos_pos; [ lia | apply pow2_pos, He ].
Qed.

(** [random - w] on doubles against the exact difference, for every double
    that is 0 or positive and below 2^53 and every integer [w] from 0 to
    2^53. *)
Lemma sub_exact (x y : spec_float) (r : Q) (w : Z) :
  represents x r ->
  represents y (inject_Z w) ->
  (r < inject_Z (2 ^ 53))%Q ->
  w < 2 ^ 53 ->
  (Qle_bool (r - inject_Z w) 0 = true
   /\ SFleb (sub x y) (S754_zero false) = true)
  \/ (Qle_bool (r - inject_Z w) 0 = false
      /\ SFleb (sub x y) (S754_zero false) = false
      /\ represents (sub x y) (r - inject_Z w)).
Proof.
  intros Hx Hy Hr Hw.
  destruct y as [sy | sy | | [|] mw cw]; try (cbn in Hy; tauto).
  - (* the weight is 0 *)
    apply represents_zero_int in Hy. subst w.
    assert (E : (r - inject_Z 0 == r)%Q) by (change (inject_Z 0) with 0%Q; ring).
    destruct x as [sx | sx | | [|] mx ex]; try (cbn in Hx; tauto).
    + left. split.
      * apply Qle_bool_iff. rewrite E. cbn in Hx. rewrite Hx. apply Qle_refl.
      * destruct sx, sy; reflexivity.
    + right. pose proof (represents_finite_pos _ _ _ Hx) as Hpos.
      split; [ | split; [ reflexivity | ] ].
      * destruct (Qle_bool_cases (r - inject_Z 0) 0) as [[_ H] | [H _]];
          [ rewrite E in H; lra | exact H ].
      * apply (represents_ext _ r); [ symmetry; exact E | exact Hx ].
  - (* the weight is above 0 *)
    pose proof (represents_finite_pos _ _ _ Hy) as Hwpos.
    destruct x as [sx | sx | | [|] mx ex]; try (cbn in Hx; tauto).
    + left. split; [ | reflexivity ].
      apply Qle_bool_iff. cbn in Hx. rewrite Hx. lra.
    + assert (Hwq : (inject_Z w < inject_Z (2 ^ 53))%Q)
        by (rewrite <- Zlt_Qlt; exact Hw).
      destruct (represents_finite _ _ _ Hx Hr) as (Hex & Hcx & Hvx & Hmx).
      destruct (represents_finite _ _ _ Hy Hwq) as (Hcw & _ & Hvw & _).
      apply (sub_finite mx mw ex cw w r); assumption.
Qed.

Lemma add_finite (mx mw : positive) (ex cw a w : Z) :
  ex <= 0 ->
  (inject_Z a == Zpos mx # Z.to_pos (2 ^ (- ex)))%Q ->
  cw <= 0 ->
  (inject_Z w == Zpos mw # Z.to_pos (2 ^ (- cw)))%Q ->
  a + w < 2 ^ 53 ->
  represents (add (S754_finite false mx ex) (S754_finite false mw cw))
    (inject_Z (a + w)).
Proof.
  intros Hex Ha Hcw Hw Hsum.
  set (ez := Z.min ex cw).
  assert (Hez : ez <= 0) by (unfold ez; lia).
  assert (Hzx : ez <= ex) by (unfold ez; lia).
  assert (Hzw : ez <= cw) by (unfold ez; lia).
  assert (Px : 0 < 2 ^ (- ex)) by (apply pow2_pos; lia).
  assert (Pw : 0 < 2 ^ (- cw)) by (apply pow2_pos; lia).
  assert (Pz : 0 < 2 ^ (- ez)) by (apply pow2_pos; lia).
  assert (Ex : 2 ^ (- ez) = 2 ^ (- ex) * 2 ^ (ex - ez)).
  { rewrite <- Z.pow_add_r by lia. f_equal. lia. }
  assert (Ew : 2 ^ (- ez) = 2 ^ (- cw) * 2 ^ (cw - ez)).
  { rewrite <- Z.pow_add_r by lia. f_equal. lia. }
  assert (Haz : Zpos mx = a * 2 ^ (- ex)).
  { unfold Qeq in Ha. cbn [Qnum Qden inject_Z] in Ha.
    rewrite Z2Pos.id in Ha by exact Px. lia. }
  assert (Hwz : Zpos mw = w * 2 ^ (- cw)).
  { unfold Qeq in Hw. cbn [Qnum Qden inject_Z] in Hw.
    rewrite Z2Pos.id in Hw by exact Pw. lia. }
  assert (Ha0 : 0 < a) by nia.
  assert (Hw0 : 0 < w) by nia.
  assert (HM : Zpos mx * 2 ^ (ex - ez) + Zpos mw * 2 ^ (cw - ez)
               = (a + w) * 2 ^ (- ez)).
  { rewrite Haz, Hwz.
    replace (a * 2 ^ (- ex) * 2 ^ (ex - ez)) with (a * 2 ^ (- ez))
      by (rewrite Ex; ring).
    replace (w * 2 ^ (- cw) * 2 ^ (cw - ez)) with (w * 2 ^ (- ez))
      by (rewrite Ew; ring).
    ring. }
  assert (Hadd : add (S754_finite false mx ex) (S754_finite false mw cw)
                 = binary_normalize prec emax ((a + w) * 2 ^ (- ez)) ez false).
  { unfold add, SFadd. fold ez. cbn [cond_Zopp].
    change (fst (shl_align mx ex ez)) with (shl_align mx ex ez).1.
    change (fst (shl_align mw cw ez)) with (shl_align mw cw ez).1.
    rewrite !shl_align_fst by assumption. rewrite HM. reflexivity. }
  rewrite Hadd.
  destruct ((a + w) * 2 ^ (- ez)) as [| p | p] eqn:EM; try nia.
  set (c := fexp prec emax (Z.log2 (Zpos p) + 1 + ez)).
  assert (Hlog : Z.log2 (Zpos p) = Z.log2 (a + w) + - ez).
  { rewrite <- EM. rewrite Z.log2_mul_pow2 by lia. lia. }
  assert (Hl : Z.log2 (a + w) < 53) by (apply Z.log2_lt_pow2; lia).
  assert (Hc0 : c <= 0).
  { unfold c, fexp, emin, prec, emax. lia. }
  apply (represents_ext _ (Zpos p # Z.to_pos (2 ^ (- ez)))).
  { unfold Qeq. cbn [Qnum Qden inject_Z]. rewrite Z2Pos.id by exact Pz.
    rewrite <- EM. ring. }
  apply normalize_exact; [ exact Hez | exact Hc0 | ].
  fold c. intros Hzc. rewrite <- EM.
  exists ((a + w) * 2 ^ (- c)).
  rewrite <- Z.mul_assoc, <- Z.pow_add_r by lia. do 2 f_equal. lia.
Qed.

(** A sum of integers below 2^53 is exact on doubles. *)
Lemma add_exact (x y : spec_float) (a w : Z) :
  represents x (inject_Z a) ->
  represents y (inject_Z w) ->
  a + w < 2 ^ 53 ->
  represents (add x y) (inject_Z (a + w)).
Proof.
  intros Hx Hy Hsum.
  destruct x as [sx | sx | | [|] mx ex]; try (cbn in Hx; tauto);
    destruct y as [sy | sy | | [|] mw cw]; try (cbn in Hy; tauto).
  - apply represents_zero_int in Hx, Hy. subst.
    destruct sx, sy; reflexivity.
  - apply represents_zero_int in Hx. subst a. exact Hy.
  - apply represents_zero_int in Hy. subst w. rewrite Z.add_0_r. exact Hx.
  - pose proof (represents_finite_pos _ _ _ Hx) as Hap.
    pose proof (represents_finite_pos _ _ _ Hy) as Hwp.
    change 0%Q with (inject_Z 0) in Hap, Hwp.
    rewrite <- Zlt_Qlt in Hap, Hwp.
    assert (Haq : (inject_Z a < inject_Z (2 ^ 53))%Q)
      by (rewrite <- Zlt_Qlt; lia).
    assert (Hwq : (inject_Z w < inject_Z (2 ^ 53))%Q)
      by (rewrite <- Zlt_Qlt; lia).
    destruct (represents_finite _ _ _ Hx Haq) as (Hex & _ & Hvx & _).
    destruct (represents_finite _ _ _ Hy Hwq) as (Hcw & _ & Hvw & _).
    apply add_finite; assumption.
Qed.


Lemma weights_below_total (pool : list Guide) :
  Forall (fun g => 0 <= totalTickets g) pool ->
  Forall (fun g => totalTickets g <= Lottery.totalWeight pool) pool.
Proof.
  induction 1 as [| g pool Hg Hpool IH]; constructor.
  - rewrite totalWeight_cons.
    pose proof (totalWeight_nonneg pool Hpool). lia.
  - eapply Forall_impl; [ exact IH | ].
    intros c Hc. cbn in Hc. rewrite totalWeight_cons. lia.
Qed.

(** On integer weights from 0 to 2^53 and for a value of [random] that is 0
    or positive and below 2^53, the scan on doubles is the exact scan. *)
Lemma double_scan_exact (rest : list Guide) :
  Forall (fun g => 0 <= totalTickets g < 2 ^ 53) rest ->
  forall x r j,
    represents x r ->
    (r < inject_Z (2 ^ 53))%Q ->
    Double.scan x j rest = Lottery.scan r j rest.
Proof.
  induction 1 as [| g rest Hg _ IH]; intros x r j Hx Hr; [ reflexivity | ].
  cbn [Double.scan Lottery.scan].
  change (of_Z 0) with (S754_zero false).
  destruct (sub_exact x (of_Z (totalTickets g)) r (totalTickets g) Hx
              (of_Z_represents _ Hg) Hr ltac:(lia))
    as [[-> ->] | (-> & -> & Hrep)]; [ reflexivity | ].
  apply IH; [ exact Hrep | ].
  assert (H0 : (0 <= inject_Z (totalTickets g))%Q).
  { change 0%Q with (inject_Z 0). rewrite <- Zle_Qle. lia. }
  lra.
Qed.

(** The sum of integer weights that are not negative and sum to less than
    2^53 is exact on doubles. *)
Lemma double_totalWeight_exact (pool : list Guide) :
  Forall (fun g => 0 <= totalTickets g) pool ->
  Lottery.totalWeight pool < 2 ^ 53 ->
  represents (Double.totalWeight pool) (inject_Z (Lottery.totalWeight pool)).
Proof.
  intros Hnn Hb. unfold Double.totalWeight, Lottery.totalWeight, JS.reduce.
  assert (G : forall l, Forall (fun g => 0 <= totalTickets g) l ->
            forall x acc,
              represents x (inject_Z acc) -> 0 <= acc ->
              acc + Lottery.totalWeight l < 2 ^ 53 ->
              represents
                (fold_left (fun sum guide => add sum (of_Z (totalTickets guide)))
                   l x)
                (inject_Z
                   (fold_left (fun sum guide => sum + totalTickets guide) l acc))).
  { induction 1 as [| g l Hg Hl IH]; intros x acc Hx Hacc Hsum;
      [ exact Hx | ].
    cbn [fold_left]. rewrite totalWeight_cons in Hsum.
    pose proof (totalWeight_nonneg l Hl) as Hl0.
    apply IH; [ | lia | lia ].
    apply add_exact; [ exact Hx | apply of_Z_represents; lia | lia ]. }
  apply (G pool Hnn (of_Z 0) 0); [ reflexivity | lia | lia ].
Qed.

Lemma double_selectedIndex_exact (pool : list Guide) (x : spec_float) (r : Q) :
  Forall (fun g => 0 <= totalTickets g) pool ->
  Lottery.totalWeight pool < 2 ^ 53 ->
  represents x r ->
  (r < inject_Z (2 ^ 53))%Q ->
  Double.selectedIndex x pool = Lottery.selectedIndex r pool.
Proof.
  intros Hnn Hb Hx Hr. unfold Double.selectedIndex, Lottery.selectedIndex.
  rewrite (double_scan_exact pool) with (r := r); [ reflexivity | | exact Hx
    | exact Hr ].
  pose proof (weights_below_total pool Hnn) as Hle.
  rewrite Forall_forall in Hnn, Hle. apply Forall_forall.
  intros g Hg. specialize (Hnn g Hg). specialize (Hle g Hg). cbn in *. lia.
Qed.

(** The round on doubles takes out the candidate at the index that the
    exact scan selects for the value that [random] holds. *)
Lemma double_round_exact (pool : list Guide) (u : spec_float) (r : Q) :
  Forall (fun g => 0 <= totalTickets g) pool ->
  Lottery.totalWeight pool < 2 ^ 53 ->
  represents (mul u (Double.totalWeight pool)) r ->
  (r < inject_Z (2 ^ 53))%Q ->
  Double.round pool u
  = ((JS.splice pool (Lottery.selectedIndex r pool) 1).1 !! O,
     (JS.splice pool (Lottery.selectedIndex r pool) 1).2).
Proof.
  intros Hnn Hb Hx Hr. unfold Double.round.
  rewrite (double_selectedIndex_exact pool _ r Hnn Hb Hx Hr).
  destruct (JS.splice pool _ 1) as [removed rest]. reflexivity.
Qed.

End DoubleRounding.

Section PartitionProperties.

Import Lottery Partition.

(** C3, as the code has it.  For a pool whose weights are not negative and
    sum to less than 2^53 (the range in which the source's arithmetic on
    doubles is the exact arithmetic of this file) and a value [r] of [random]
    in [[0, totalWeight)], the scan selects index [i] exactly when [r] lies
    in the interval from the weight before [i] (excluded; for index 0, from 0
    included) up to the weight up to and including [i] (included); that
    interval is as long as candidate [i]'s weight; and the scan selects the
    index of the partition formulation whenever [r] is not the upper end of a
    sub-interval.  The scan on doubles, from a double that is [r], selects
    the same index. *)
Theorem scan_selects_upper_closed_interval (pool : list Guide) (r : Q) :
  Forall (fun g => 0 <= totalTickets g) pool ->
  totalWeight pool < 2 ^ 53 ->
  (0 <= r)%Q ->
  (r < inject_Z (totalWeight pool))%Q ->
  (forall i, selectedIndex r pool = i
             <-> (i < length pool)%nat /\ scanInterval i pool r)
  /\ (forall i g, pool !! i = Some g ->
                  prefixWeight (S i) pool - prefixWeight i pool
                  = totalTickets g)
  /\ ((forall i, (0 < i <= length pool)%nat ->
                 ~ (r == inject_Z (prefixWeight i pool))%Q) ->
      partitionIndex r pool = Some (selectedIndex r pool))
  /\ (forall x, Double.represents x r ->
                Double.selectedIndex x pool = selectedIndex r pool).
Proof.
  intros Hnn Hb H0 Hlt.
  assert (Hr53 : (r < inject_Z (2 ^ 53))%Q).
  { rewrite Zlt_Qlt in Hb. lra. }
  assert (Hne : pool <> []).
  { intros ->. rewrite totalWeight_nil in Hlt.
    change (inject_Z 0) with 0%Q in Hlt. lra. }
  destruct (scan_stops pool Hnn r O Hne ltac:(lra))
    as (i0 & Hs & Hi0 & Hup & Hlo).
  rewrite Nat.add_0_l in Hs.
  assert (Hsel : selectedIndex r pool = i0)
    by (unfold selectedIndex; rewrite Hs; reflexivity).
  assert (Hint : scanInterval i0 pool r).
  { destruct i0 as [| i0]; [ exact Hup | ].
    split; [ apply Hlo; lia | exact Hup ]. }
  split; [ | split; [ | split ] ].
  - intros i. rewrite Hsel. split.
    + intros <-. split; assumption.
    + intros [_ Hi]. apply (scanInterval_unique pool r); assumption.
  - intros i g Hg. rewrite (prefixWeight_S i g pool Hg). lia.
  - intros Hbd. unfold partitionIndex. rewrite Hsel, <- Hs.
    rewrite <- (locate_scan pool r 0 O H0 Hbd).
    apply locate_ext. change (inject_Z 0) with 0%Q. ring.
  - intros x Hx. apply double_selectedIndex_exact; assumption.
Qed.

Lemma scan_selects_upper_closed_interval_witness :
  Forall (fun g => 0 <= totalTickets g) [gA; gB; gC]
  /\ totalWeight [gA; gB; gC] < 2 ^ 53
  /\ (0 <= 5 # 2)%Q
  /\ (5 # 2 < inject_Z (totalWeight [gA; gB; gC]))%Q
  /\ partitionIndex (5 # 2) [gA; gB; gC]
     = Some (selectedIndex (5 # 2) [gA; gB; gC]).
Proof.
  assert (Hnn : Forall (fun g => 0 <= totalTickets g) [gA; gB; gC])
    by (repeat constructor; vm_compute; discriminate).
  assert (Hb : totalWeight [gA; gB; gC] < 2 ^ 53)
    by (vm_compute; reflexivity).
  assert (H0 : (0 <= 5 # 2)%Q) by (vm_compute; discriminate).
  assert (Hlt : (5 # 2 < inject_Z (totalWeight [gA; gB; gC]))%Q)
    by (vm_compute; reflexivity).
  split; [ exact Hnn | split; [ exact Hb | split; [ exact H0 | split;
    [ exact Hlt | ] ] ] ].
  apply (proj1 (proj2 (proj2 (scan_selects_upper_closed_interval
                                [gA; gB; gC] (5 # 2) Hnn Hb H0 Hlt)))).
  intros i Hi E.
  destruct i as [| [| [| [| i]]]]; vm_compute in E, Hi; try discriminate; lia.
Defined.

(** C3, as the claim states it, fails where [r] is the upper end of a
    sub-interval: on the pool A(1), B(1) with [Math.random()] returning 1/2,
    [r] is 1; the scan stops at index 0 (1 - 1 <= 0) and the partition
    [[0, 1)], [[1, 2)] holds 1 in its sub-interval 1. *)
Lemma scan_differs_from_partition_at_boundary :
  Forall (fun g => 0 <= totalTickets g) [gA; gB]
  /\ (0 <= (1 # 2) * inject_Z (totalWeight [gA; gB]))%Q
  /\ ((1 # 2) * inject_Z (totalWeight [gA; gB])
      < inject_Z (totalWeight [gA; gB]))%Q
  /\ selectedIndex ((1 # 2) * inject_Z (totalWeight [gA; gB])) [gA; gB] = O
  /\ partitionIndex ((1 # 2) * inject_Z (totalWeight [gA; gB])) [gA; gB]
     = Some 1%nat
  /\ partitionIndex ((1 # 2) * inject_Z (totalWeight [gA; gB])) [gA; gB]
     <> Some (selectedIndex ((1 # 2) * inject_Z (totalWeight [gA; gB]))
                [gA; gB]).
Proof.
  split; [ repeat constructor; vm_compute; discriminate | ].
  split; [ vm_compute; discriminate | ].
  split; [ vm_compute; reflexivity | ].
  split; [ vm_compute; reflexivity | ].
  split; [ vm_compute; reflexivity | ].
  vm_compute. discriminate.
Qed.

(** C4, as the code has it.  For a pool whose weights are not negative and
    sum to less than 2^53 (the range in which the source's arithmetic on
    doubles is the exact arithmetic of this file) and a value [r] of [random]
    in [[0, totalWeight)], the scan selects a candidate of the pool, the one
    that [splice(selectedIndex, 1)[0]] takes out; that candidate's weight is
    above 0 whenever [r] is above 0, and for [r] equal to 0 the scan selects
    index 0.  The scan on doubles, from a double that is [r], selects the
    same index. *)
Theorem positive_draw_selects_positive_weight (pool : list Guide) (r : Q) :
  Forall (fun g => 0 <= totalTickets g) pool ->
  totalWeight pool < 2 ^ 53 ->
  (0 <= r)%Q ->
  (r < inject_Z (totalWeight pool))%Q ->
  exists g before after,
    pool = before ++ g :: after
    /\ length before = selectedIndex r pool
    /\ JS.splice pool (selectedIndex r pool) 1 = ([g], before ++ after)
    /\ ((0 < r)%Q -> 0 < totalTickets g)
    /\ ((r == 0)%Q -> selectedIndex r pool = O)
    /\ (forall x, Double.represents x r ->
                  Double.selectedIndex x pool = selectedIndex r pool).
Proof.
  intros Hnn Hb H0 Hlt.
  assert (Hr53 : (r < inject_Z (2 ^ 53))%Q).
  { rewrite Zlt_Qlt in Hb. lra. }
  assert (Hdbl : forall x, Double.represents x r ->
                   Double.selectedIndex x pool = selectedIndex r pool).
  { intros x Hx. apply double_selectedIndex_exact; assumption. }
  assert (Hne : pool <> []).
  { intros ->. rewrite totalWeight_nil in Hlt.
    change (inject_Z 0) with 0%Q in Hlt. lra. }
  destruct (scan_stops pool Hnn r O Hne ltac:(lra))
    as (i0 & Hs & Hi0 & Hup & Hlo).
  rewrite Nat.add_0_l in Hs.
  assert (Hsel : selectedIndex r pool = i0)
    by (unfold selectedIndex; rewrite Hs; reflexivity).
  rewrite Hsel.
  destruct (splice_in_range pool i0 Hi0) as (g & l1 & l2 & Hp & Hl & Hspl).
  assert (Hg : pool !! i0 = Some g).
  { rewrite <- Hl. rewrite Hp at 1. apply list_lookup_middle. reflexivity. }
  exists g, l1, l2.
  split; [ exact Hp | ]. split; [ exact Hl | ]. split; [ exact Hspl | ].
  rewrite (prefixWeight_S i0 g pool Hg), inject_Z_plus in Hup.
  assert (Hpre : 0 <= prefixWeight i0 pool).
  { rewrite <- (prefixWeight_0 pool).
    apply (prefixWeight_mono pool Hnn); lia. }
  rewrite Zle_Qle in Hpre. change (inject_Z 0) with 0%Q in Hpre.
  split; [ | split ].
  - intros Hpos. rewrite Zlt_Qlt. change (inject_Z 0) with 0%Q.
    destruct i0 as [| i0].
    + rewrite prefixWeight_0 in Hup. change (inject_Z 0) with 0%Q in Hup.
      lra.
    + specialize (Hlo ltac:(lia)). lra.
  - intros Hr0. destruct i0 as [| i0]; [ reflexivity | ].
    specialize (Hlo ltac:(lia)). lra.
  - intros x Hx. rewrite <- Hsel. apply Hdbl, Hx.
Qed.

Lemma positive_draw_selects_positive_weight_witness :
  Forall (fun g => 0 <= totalTickets g) [gZ; gB; gZ; gC]
  /\ totalWeight [gZ; gB; gZ; gC] < 2 ^ 53
  /\ (0 <= 1)%Q
  /\ (1 < inject_Z (totalWeight [gZ; gB; gZ; gC]))%Q
  /\ exists g before after,
       [gZ; gB; gZ; gC] = before ++ g :: after
       /\ length before = selectedIndex 1 [gZ; gB; gZ; gC]
       /\ JS.splice [gZ; gB; gZ; gC] (selectedIndex 1 [gZ; gB; gZ; gC]) 1
          = ([g], before ++ after)
       /\ ((0 < 1)%Q -> 0 < totalTickets g)
       /\ ((1 == 0)%Q -> selectedIndex 1 [gZ; gB; gZ; gC] = O)
       /\ (forall x, Double.represents x 1 ->
                     Double.selectedIndex x [gZ; gB; gZ; gC]
                     = selectedIndex 1 [gZ; gB; gZ; gC]).
Proof.
  assert (Hnn : Forall (fun g => 0 <= totalTickets g) [gZ; gB; gZ; gC])
    by (repeat constructor; vm_compute; discriminate).
  assert (Hb : totalWeight [gZ; gB; gZ; gC] < 2 ^ 53)
    by (vm_compute; reflexivity).
  assert (H0 : (0 <= 1)%Q) by (vm_compute; discriminate).
  assert (Hlt : (1 < inject_Z (totalWeight [gZ; gB; gZ; gC]))%Q)
    by (vm_compute; reflexivity).
  split; [ exact Hnn | split; [ exact Hb | split; [ exact H0 | split;
    [ exact Hlt | ] ] ] ].
  apply (positive_draw_selects_positive_weight [gZ; gB; gZ; gC] 1
           Hnn Hb H0 Hlt).
Defined.

(** C4, as the claim states it, fails at [r = 0]: on the pool Z(0), B(1) the
    total weight is 1, and with [Math.random()] returning 0 the scan stops at
    index 0 (0 - 0 <= 0), so the round's winner is Z, whose weight is 0. *)
Lemma zero_draw_selects_zero_weight :
  0 < totalWeight [gZ; gB]
  /\ (0 <= 0 * inject_Z (totalWeight [gZ; gB]))%Q
  /\ (0 * inject_Z (totalWeight [gZ; gB]) < inject_Z (totalWeight [gZ; gB]))%Q
  /\ round [gZ; gB] 0 = (Some gZ, [gB])
  /\ ~ (0 < totalTickets gZ).
Proof.
  split; [ vm_compute; reflexivity | ].
  split; [ vm_compute; discriminate | ].
  split; [ vm_compute; reflexivity | ].
  split; [ vm_compute; reflexivity | ].
  vm_compute. discriminate.
Qed.

End PartitionProperties.

(** ** The random source *)

Section Determinism.

Import Lottery.

(** The scan reads the value of [random], not the fraction that stands for
    it. *)
Lemma scan_ext (rest : list Guide) :
  forall r r' j, (r == r')%Q -> scan r j rest = scan r' j rest.
Proof.
  induction rest as [| g rest IH]; intros r r' j E; [ reflexivity | ].
  cbn [scan].
  assert (E' : (r - inject_Z (totalTickets g)
                == r' - inject_Z (totalTickets g))%Q) by (rewrite E; reflexivity).
  rewrite (IH _ _ (S j) E'), E'. reflexivity.
Qed.

Lemma round_ext (pool : list Guide) (u u' : Q) :
  (u == u')%Q -> round pool u = round pool u'.
Proof.
  intros E. unfold round, selectedIndex.
  rewrite (scan_ext pool (u * inject_Z (totalWeight pool))%Q
             (u' * inject_Z (totalWeight pool))%Q O);
    [ reflexivity | rewrite E; reflexivity ].
Qed.

(** The loop makes one call of [Math.random()] for each round it runs and
    depends on the values of those calls only. *)
Lemma rounds_ext (n : nat) :
  forall pool winners rng1 rng2,
    (forall k, (k < Nat.min n (length pool))%nat -> (rng1 k == rng2 k)%Q) ->
    (rounds n pool winners rng1).1 = (rounds n pool winners rng2).1.
Proof.
  induction n as [| n IH]; intros pool winners rng1 rng2 Hrng;
    [ reflexivity | ].
  destruct (decide (pool = [])) as [-> | Hne].
  - rewrite !rounds_nil. reflexivity.
  - destruct (round_inv pool (rng1 O) Hne) as (w & l1 & l2 & Hp & _ & Hr).
    assert (Hlen : (0 < length pool)%nat)
      by (rewrite Hp, length_app; cbn [length]; lia).
    assert (Hr2 : round pool (rng2 O) = (Some w, l1 ++ l2)).
    { rewrite <- Hr. symmetry. apply round_ext, Hrng. lia. }
    rewrite (rounds_step _ _ _ _ _ _ Hne Hr), (rounds_step _ _ _ _ _ _ Hne Hr2).
    apply IH. intros k Hk. apply Hrng.
    rewrite Hp, length_app in *. cbn [length] in *. lia.
Qed.

(** C9.  Two runs on the same candidate list with the same count, whose
    random sources return equal values at the calls the runs make (one call
    for each of the [min count (length guides)] rounds), return the same
    winner list. *)
Theorem selection_deterministic (guides : list Guide) (count : Z)
    (rng1 rng2 : JS.Rng) :
  (forall k, (k < Nat.min (Z.to_nat count) (length guides))%nat ->
             (rng1 k == rng2 k)%Q) ->
  weightedRandomSelection guides count rng1
  = weightedRandomSelection guides count rng2.
Proof.
  intros Hrng. unfold weightedRandomSelection.
  rewrite (rounds_ext _ guides [] rng1 rng2 Hrng). reflexivity.
Qed.

Lemma selection_deterministic_witness :
  weightedRandomSelection [gA; gB; gC] 2 (fun _ => 1 # 2)
  = weightedRandomSelection [gA; gB; gC] 2
      (fun k => match k with O | S O => 2 # 4 | _ => 0%Q end).
Proof.
  apply (selection_deterministic [gA; gB; gC] 2).
  intros k Hk. change (Nat.min (Z.to_nat 2) (length [gA; gB; gC])) with 2%nat in Hk.
  destruct k as [| [| k]]; [ reflexivity | reflexivity | lia ].
Defined.

End Determinism.

(** ** The copy of the loop in the component *)

Section Component.

Lemma component_scan_eq (rest : list Guide) :
  forall random j, NameScrolling.scan random j rest = Lottery.scan random j rest.
Proof.
  induction rest as [| g rest IH]; intros random j; [ reflexivity | ].
  cbn [NameScrolling.scan Lottery.scan]. rewrite IH. reflexivity.
Qed.

Lemma component_round_eq (pool : list Guide) (u : Q) :
  NameScrolling.round pool u = Lottery.round pool u.
Proof.
  unfold NameScrolling.round, Lottery.round, Lottery.selectedIndex.
  rewrite component_scan_eq. reflexivity.
Qed.

Lemma component_rounds_eq (n : nat) :
  forall pool winners rng,
    NameScrolling.rounds n pool winners rng = Lottery.rounds n pool winners rng.
Proof.
  induction n as [| n IH]; intros pool winners rng; [ reflexivity | ].
  cbn [NameScrolling.rounds Lottery.rounds].
  destruct (0 <? length pool)%nat; [ | reflexivity ].
  destruct (JS.Math_random rng) as [u rng'].
  rewrite component_round_eq.
  destruct (Lottery.round pool u) as [winner pool'].
  apply IH.
Qed.

(** C8.  The loop of the [NameScrolling] effect returns, for every candidate
    list, count and random source, the winner list that
    [weightedRandomSelection] returns; the effect hands that list on whenever
    its guard lets it run. *)
Theorem component_loop_is_selector (guides : list Guide) (winnerCount : Z)
    (rng : JS.Rng) :
  NameScrolling.selectWinners guides winnerCount rng
  = Lottery.weightedRandomSelection guides winnerCount rng
  /\ (forall isScrolling winners,
        NameScrolling.effect isScrolling guides winnerCount rng = Some winners ->
        winners = Lottery.weightedRandomSelection guides winnerCount rng).
Proof.
  assert (E : NameScrolling.selectWinners guides winnerCount rng
              = Lottery.weightedRandomSelection guides winnerCount rng).
  { unfold NameScrolling.selectWinners, Lottery.weightedRandomSelection.
    rewrite component_rounds_eq. reflexivity. }
  split; [ exact E | ].
  intros isScrolling winners. unfold NameScrolling.effect.
  destruct (negb isScrolling || (length guides =? 0)%nat); [ discriminate | ].
  intros [= <-]. exact E.
Qed.

End Component.

(** ** The store: what a call writes *)

Section StoreFacts.

Import Ref.

Lemma bind_run {A B : Type} (m : M A) (f : A -> M B) (s : State) :
  (m ≫= f) s
  = match m s with
    | (Some a, s') => f a s'
    | (None, s') => (None, s')
    end.
Proof. reflexivity. Qed.

Lemma bind_returns {A B : Type} (m : M A) (f : A -> M B) (s s' : State)
    (a : A) :
  m s = (Some a, s') -> (m ≫= f) s = f a s'.
Proof. intros E. rewrite bind_run, E. reflexivity. Qed.

Lemma get_run (l : loc) (arr : list JsVal) (s : State) :
  store s !! l = Some arr -> get l s = (Some arr, s).
Proof. intros E. unfold get. rewrite E. reflexivity. Qed.

Lemma fresh_unused (s : State) : store s !! fresh (dom (store s)) = None.
Proof. apply not_elem_of_dom, is_fresh. Qed.

Lemma preserves_ret {A : Type} (l : loc) (a : A) : preserves l (ret a).
Proof. intros s. reflexivity. Qed.

Lemma preserves_throw {A : Type} (l : loc) : preserves l (@throw A).
Proof. intros s. reflexivity. Qed.

Lemma preserves_bind {A B : Type} (l : loc) (m : M A) (f : A -> M B) :
  preserves l m -> (forall a, preserves l (f a)) -> preserves l (m ≫= f).
Proof.
  intros Hm Hf s. rewrite bind_run. specialize (Hm s).
  destruct (m s) as [[a |] s']; cbn [snd] in *.
  - rewrite (Hf a s'). exact Hm.
  - exact Hm.
Qed.

Lemma preserves_get (l l' : loc) : preserves l (get l').
Proof. intros s. unfold get. destruct (store s !! l'); reflexivity. Qed.

Lemma preserves_set (l l' : loc) (arr : list JsVal) :
  l <> l' -> preserves l (set l' arr).
Proof. intros Hne s. unfold set. cbn. apply lookup_insert_ne. congruence. Qed.

Lemma preserves_Math_random (l : loc) : preserves l Math_random.
Proof. intros s. reflexivity. Qed.

Lemma preserves_totalTickets_of (l : loc) (v : JsVal) :
  preserves l (totalTickets_of v).
Proof. destruct v; [ apply preserves_ret | apply preserves_throw ]. Qed.

Lemma preserves_reduce {A B : Type} (l : loc) (f : B -> A -> M B)
    (arr : list A) :
  (forall acc x, preserves l (f acc x)) ->
  forall init, preserves l (reduce f init arr).
Proof.
  intros Hf. induction arr as [| x arr IH]; intros init; cbn [reduce].
  - apply preserves_ret.
  - apply preserves_bind; [ apply Hf | exact IH ].
Qed.

Lemma preserves_totalWeight (l availableGuides : loc) :
  preserves l (totalWeight availableGuides).
Proof.
  unfold totalWeight. apply preserves_bind; [ apply preserves_get | ].
  intros arr. apply preserves_reduce. intros acc v.
  apply preserves_bind; [ apply preserves_totalTickets_of | ].
  intros t. apply preserves_ret.
Qed.

Lemma preserves_scan (l : loc) (rest : list JsVal) :
  forall random j, preserves l (scan random j rest).
Proof.
  induction rest as [| v rest IH]; intros random j; cbn [scan].
  - apply preserves_ret.
  - apply preserves_bind; [ apply preserves_totalTickets_of | ].
    intros t. destruct (Qle_bool _ 0); [ apply preserves_ret | apply IH ].
Qed.

Lemma preserves_splice_first (l availableGuides : loc) (start : nat) :
  l <> availableGuides -> preserves l (splice_first availableGuides start).
Proof.
  intros Hne. unfold splice_first.
  apply preserves_bind; [ apply preserves_get | ].
  intros arr. destruct (JS.splice arr start 1) as [removed arr'].
  apply preserves_bind; [ apply preserves_set, Hne | ].
  intros _. apply preserves_ret.
Qed.

Lemma preserves_push (l winners : loc) (winner : JsVal) :
  l <> winners -> preserves l (push winners winner).
Proof.
  intros Hne. unfold push.
  apply preserves_bind; [ apply preserves_get | ].
  intros arr. apply preserves_set, Hne.
Qed.

(** The loop writes to [availableGuides] and [winners] only. *)
Lemma preserves_rounds (l availableGuides winners : loc) (n : nat) :
  l <> availableGuides -> l <> winners ->
  preserves l (rounds n availableGuides winners).
Proof.
  intros Ha Hw. induction n as [| n IH]; cbn [rounds].
  - apply preserves_ret.
  - apply preserves_bind; [ apply preserves_get | ].
    intros arr. destruct (0 <? length arr)%nat; [ | apply preserves_ret ].
    apply preserves_bind; [ apply preserves_totalWeight | ]. intros W.
    apply preserves_bind; [ apply preserves_Math_random | ]. intros u.
    apply preserves_bind; [ apply preserves_get | ]. intros arr'.
    apply preserves_bind; [ apply preserves_scan | ]. intros found.
    apply preserves_bind; [ apply preserves_splice_first, Ha | ].
    intros winner.
    apply preserves_bind; [ apply preserves_push, Hw | ].
    intros _. exact IH.
Qed.

(** A call leaves every array that the store holds before the call as it
    is. *)
Lemma call_preserves_store (guides : loc) (count : Z) (s : State) (l : loc)
    (a : list JsVal) :
  store s !! l = Some a ->
  store (weightedRandomSelection guides count s).2 !! l = Some a.
Proof.
  intros Hl. unfold weightedRandomSelection.
  rewrite bind_run. unfold get at 1.
  destruct (store s !! guides) as [arr |]; [ | exact Hl ].
  rewrite bind_run. cbn [alloc].
  set (l1 := fresh (dom (store s))).
  set (s1 := mkState (<[l1 := arr]> (store s)) (random_source s)).
  assert (H1 : l <> l1).
  { intros ->. pose proof (fresh_unused s) as Hf. fold l1 in Hf. congruence. }
  assert (Hl1 : store s1 !! l = Some a).
  { unfold s1. cbn. rewrite lookup_insert_ne by congruence. exact Hl. }
  rewrite bind_run. cbn [alloc].
  set (l2 := fresh (dom (store s1))).
  set (s2 := mkState (<[l2 := []]> (store s1)) (random_source s1)).
  assert (H2 : l <> l2).
  { intros ->. pose proof (fresh_unused s1) as Hf. fold l2 in Hf. congruence. }
  assert (Hl2 : store s2 !! l = Some a).
  { unfold s2. cbn [store]. rewrite lookup_insert_ne by congruence. exact Hl1. }
  rewrite <- Hl2.
  apply (preserves_bind l (rounds (Z.to_nat count) l1 l2) (fun _ => ret l2)).
  - apply preserves_rounds; assumption.
  - intros _. apply preserves_ret.
Qed.

End StoreFacts.

(** ** The store: a call on an array of candidates *)

Section StoreRefinement.

Import Ref.

Lemma splice_fmap {A B : Type} (f : A -> B) (arr : list A) (k d : nat) :
  JS.splice (f <$> arr) k d
  = (f <$> (JS.splice arr k d).1, f <$> (JS.splice arr k d).2).
Proof.
  unfold JS.splice. cbn [fst snd].
  rewrite fmap_app, !fmap_take, !fmap_drop. reflexivity.
Qed.

Lemma round_splice (pool : list Guide) (u : Q) :
  Lottery.round pool u
  = (let k := Lottery.selectedIndex
                (u * inject_Z (Lottery.totalWeight pool))%Q pool in
     ((JS.splice pool k 1).1 !! O, (JS.splice pool k 1).2)).
Proof.
  unfold Lottery.round. cbv zeta.
  destruct (JS.splice pool _ 1) as [removed rest]. reflexivity.
Qed.

Lemma reduce_typed (pool : list Guide) :
  forall acc s,
    reduce (fun sum guide => t ← totalTickets_of guide; ret (sum + t)) acc
      (Some <$> pool) s
    = (Some (fold_left (fun sum guide => sum + totalTickets guide) pool acc), s).
Proof.
  induction pool as [| g pool IH]; intros acc s; [ reflexivity | ].
  cbn [fmap list_fmap reduce fold_left].
  rewrite bind_run. cbn. apply IH.
Qed.

Lemma totalWeight_typed (availableGuides : loc) (pool : list Guide)
    (s : State) :
  store s !! availableGuides = Some (Some <$> pool) ->
  totalWeight availableGuides s = (Some (Lottery.totalWeight pool), s).
Proof.
  intros E. unfold totalWeight.
  rewrite (bind_returns _ _ _ _ _ (get_run _ _ _ E)). apply reduce_typed.
Qed.

Lemma scan_typed (pool : list Guide) :
  forall random j s,
    scan random j (Some <$> pool) s = (Some (Lottery.scan random j pool), s).
Proof.
  induction pool as [| g pool IH]; intros random j s; [ reflexivity | ].
  cbn [fmap list_fmap scan Lottery.scan].
  rewrite bind_run. cbn [totalTickets_of ret].
  destruct (Qle_bool _ 0); [ reflexivity | apply IH ].
Qed.

Lemma splice_first_typed (availableGuides : loc) (pool : list Guide)
    (k : nat) (s : State) :
  store s !! availableGuides = Some (Some <$> pool) ->
  splice_first availableGuides k s
  = (Some ((JS.splice pool k 1).1 !! O),
     mkState (<[availableGuides := Some <$> (JS.splice pool k 1).2]> (store s))
       (random_source s)).
Proof.
  intros E. unfold splice_first.
  rewrite (bind_returns _ _ _ _ _ (get_run _ _ _ E)).
  rewrite splice_fmap. rewrite bind_run. cbn [set ret].
  unfold JS.index. rewrite list_lookup_fmap.
  destruct ((JS.splice pool k 1).1 !! O); reflexivity.
Qed.

Lemma push_run (winners : loc) (ws : list JsVal) (w : JsVal) (s : State) :
  store s !! winners = Some ws ->
  push winners w s
  = (Some tt, mkState (<[winners := ws ++ [w]]> (store s)) (random_source s)).
Proof.
  intros E. unfold push.
  rewrite (bind_returns _ _ _ _ _ (get_run _ _ _ E)). reflexivity.
Qed.

Lemma insert_twice_absorb (m : gmap loc (list JsVal)) (a w : loc)
    (x y p q : list JsVal) :
  <[w := q]> (<[a := p]> (<[w := y]> (<[a := x]> m)))
  = <[w := q]> (<[a := p]> m).
Proof.
  apply map_eq. intros i.
  destruct (decide (i = w)) as [-> | Hw]; [ by rewrite !lookup_insert_eq | ].
  rewrite !(lookup_insert_ne _ w) by congruence.
  destruct (decide (i = a)) as [-> | Ha]; [ by rewrite !lookup_insert_eq | ].
  repeat (rewrite lookup_insert_ne by congruence). reflexivity.
Qed.

(** On a store in which [availableGuides] holds candidates only, the loop
    over references does what the loop over values does: it returns, and it
    leaves in [winners] and [availableGuides] the lists that the loop over
    values computes. *)
Lemma rounds_typed (n : nat) :
  forall (s : State) (availableGuides winners : loc) (pool : list Guide)
         (ws : list JsVal),
    availableGuides <> winners ->
    store s !! availableGuides = Some (Some <$> pool) ->
    store s !! winners = Some ws ->
    rounds n availableGuides winners s
    = (Some tt,
       mkState
         (<[winners := (Lottery.rounds n pool ws (random_source s)).1.1]>
            (<[availableGuides :=
                 Some <$> (Lottery.rounds n pool ws (random_source s)).1.2]>
               (store s)))
         (Lottery.rounds n pool ws (random_source s)).2).
Proof.
  assert (Hstop : forall (s : State) a w (pool : list Guide) (ws : list JsVal),
            a <> w ->
            store s !! a = Some (Some <$> pool) -> store s !! w = Some ws ->
            s = mkState (<[w := ws]> (<[a := Some <$> pool]> (store s)))
                  (random_source s)).
  { intros [m rng] a w pool ws Hne Ha Hw. cbn in *. f_equal.
    rewrite (insert_id m a) by exact Ha. rewrite insert_id by exact Hw.
    reflexivity. }
  induction n as [| n IH]; intros s a w pool ws Hne Ha Hw.
  - cbn [rounds Lottery.rounds fst snd]. unfold ret.
    f_equal. apply Hstop; assumption.
  - cbn [rounds].
    rewrite (bind_returns _ _ _ _ _ (get_run _ _ _ Ha)).
    rewrite length_fmap.
    destruct (decide (pool = [])) as [-> | Hpool].
    + rewrite rounds_nil. cbn [length Nat.ltb Nat.leb fst snd].
      unfold ret. f_equal. apply Hstop; assumption.
    + assert (Hlen : (0 <? length pool)%nat = true).
      { destruct pool; [ congruence | reflexivity ]. }
      rewrite Hlen.
      rewrite (bind_returns _ _ _ _ _ (totalWeight_typed _ _ _ Ha)).
      rewrite bind_run. cbn [Math_random JS.Math_random].
      set (u := random_source s O).
      set (s1 := mkState (store s) (fun k => random_source s (S k))).
      assert (Ha1 : store s1 !! a = Some (Some <$> pool)) by exact Ha.
      rewrite (bind_returns _ _ _ _ _ (get_run _ _ _ Ha1)).
      rewrite (bind_returns _ _ _ _ _ (scan_typed _ _ _ _)).
      rewrite (bind_returns _ _ _ _ _ (splice_first_typed _ _ _ _ Ha1)).
      fold (Lottery.selectedIndex
              (u * inject_Z (Lottery.totalWeight pool))%Q pool).
      set (k := Lottery.selectedIndex _ pool).
      set (s2 := mkState (<[a := Some <$> (JS.splice pool k 1).2]> (store s1))
                   (random_source s1)).
      assert (Hw2 : store s2 !! w = Some ws).
      { unfold s2, s1. cbn [store]. rewrite lookup_insert_ne by exact Hne.
        exact Hw. }
      rewrite (bind_returns _ _ _ _ _ (push_run _ _ _ _ Hw2)).
      set (s3 := mkState _ (random_source s2)).
      rewrite (IH s3 a w (JS.splice pool k 1).2
                 (ws ++ [(JS.splice pool k 1).1 !! O]) Hne).
      * assert (Hstep : Lottery.rounds (S n) pool ws (random_source s)
                        = Lottery.rounds n (JS.splice pool k 1).2
                            (ws ++ [(JS.splice pool k 1).1 !! O])
                            (random_source s3)).
        { apply (rounds_step n pool ws (random_source s));
            [ exact Hpool | apply round_splice ]. }
        rewrite Hstep. f_equal. f_equal.
        unfold s3, s2, s1. cbn [store]. apply insert_twice_absorb.
      * unfold s3, s2. cbn [store].
        rewrite lookup_insert_ne by congruence. apply lookup_insert_eq.
      * unfold s3. cbn [store]. apply lookup_insert_eq.
Qed.

End StoreRefinement.

Section StoreProperties.

Import Ref.

(** A call on an array of candidates returns: its value is a new array that
    holds the winner list of the selector over values. *)
Lemma call_returns_winners (guides : loc) (count : Z) (s : State)
    (gs : list Guide) :
  store s !! guides = Some (Some <$> gs) ->
  exists winners,
    (weightedRandomSelection guides count s).1 = Some winners
    /\ winners <> guides
    /\ store (weightedRandomSelection guides count s).2 !! winners
       = Some (Lottery.weightedRandomSelection gs count (random_source s)).
Proof.
  intros Hg. unfold weightedRandomSelection.
  rewrite (bind_returns _ _ _ _ _ (get_run _ _ _ Hg)).
  rewrite bind_run. cbn [alloc].
  set (l1 := fresh (dom (store s))).
  set (s1 := mkState (<[l1 := Some <$> gs]> (store s)) (random_source s)).
  rewrite bind_run. cbn [alloc].
  set (l2 := fresh (dom (store s1))).
  set (s2 := mkState (<[l2 := []]> (store s1)) (random_source s1)).
  assert (H1 : store s1 !! l1 = Some (Some <$> gs))
    by (unfold s1; cbn [store]; apply lookup_insert_eq).
  assert (H12 : l1 <> l2).
  { intros E. pose proof (fresh_unused s1) as Hf. fold l2 in Hf.
    rewrite <- E, H1 in Hf. discriminate. }
  assert (Hg2 : guides <> l2).
  { intros E. pose proof (fresh_unused s1) as Hf. fold l2 in Hf.
    rewrite <- E in Hf. unfold s1 in Hf. cbn [store] in Hf.
    destruct (decide (l1 = guides)) as [E1 | N1].
    - rewrite E1, lookup_insert_eq in Hf. discriminate.
    - rewrite lookup_insert_ne in Hf by exact N1.
      rewrite Hg in Hf. discriminate. }
  assert (Ha : store s2 !! l1 = Some (Some <$> gs)).
  { unfold s2. cbn [store].
    rewrite lookup_insert_ne by (intros E; apply H12; symmetry; exact E).
    exact H1. }
  assert (Hw : store s2 !! l2 = Some [])
    by (unfold s2; cbn [store]; apply lookup_insert_eq).
  rewrite (bind_returns _ _ _ _ _
             (rounds_typed (Z.to_nat count) s2 l1 l2 gs [] H12 Ha Hw)).
  exists l2. cbn [ret fst snd store].
  split; [ reflexivity | ].
  split; [ intros E; apply Hg2; symmetry; exact E | ].
  rewrite lookup_insert_eq. reflexivity.
Qed.

(** C6.  A call of [weightedRandomSelection] on the array at [guides] leaves
    that array as it was, with the same elements in the same order, and so
    every other array of the caller's store: the selector writes to its copy
    and to its winner list only, both new arrays.  On an array of candidates
    the call returns the winner list in a new array. *)
Theorem input_list_unchanged (s : State) (guides : loc) (count : Z)
    (arr : list JsVal) :
  store s !! guides = Some arr ->
  store (weightedRandomSelection guides count s).2 !! guides = Some arr
  /\ (forall l a, store s !! l = Some a ->
                  store (weightedRandomSelection guides count s).2 !! l
                  = Some a)
  /\ (forall gs, arr = Some <$> gs ->
        exists winners,
          (weightedRandomSelection guides count s).1 = Some winners
          /\ winners <> guides
          /\ store (weightedRandomSelection guides count s).2 !! winners
             = Some (Lottery.weightedRandomSelection gs count
                       (random_source s))).
Proof.
  intros Hg.
  split; [ apply call_preserves_store, Hg | ].
  split; [ intros l a; apply call_preserves_store | ].
  intros gs ->. apply call_returns_winners, Hg.
Qed.

Lemma input_list_unchanged_witness :
  store (mkState {[ 7%nat := [Some gA; Some gB; Some gC] ]} (fun _ => 1 # 2))
    !! 7%nat = Some [Some gA; Some gB; Some gC]
  /\ store (weightedRandomSelection 7%nat 2
              (mkState {[ 7%nat := [Some gA; Some gB; Some gC] ]}
                 (fun _ => 1 # 2))).2
       !! 7%nat = Some [Some gA; Some gB; Some gC].
Proof.
  assert (H : store (mkState {[ 7%nat := [Some gA; Some gB; Some gC] ]}
                       (fun _ => 1 # 2))
                !! 7%nat = Some [Some gA; Some gB; Some gC])
    by (vm_compute; reflexivity).
  split; [ exact H | ].
  exact (proj1 (input_list_unchanged _ 7%nat 2 _ H)).
Defined.

End StoreProperties.

(** ** Further properties of the selector *)

Section SelectorComposition.

Import Lottery.

(** The winners already drawn are carried along and not read. *)
Lemma rounds_winners_acc (n : nat) :
  forall pool winners rng,
    rounds n pool winners rng
    = (winners ++ (rounds n pool [] rng).1.1,
       (rounds n pool [] rng).1.2,
       (rounds n pool [] rng).2).
Proof.
  induction n as [| n IH]; intros pool winners rng.
  - cbn [rounds fst snd]. rewrite app_nil_r. reflexivity.
  - destruct (decide (pool = [])) as [-> | Hne].
    + rewrite !rounds_nil. cbn [fst snd]. rewrite app_nil_r. reflexivity.
    + destruct (round_inv pool (rng O) Hne) as (w & l1 & l2 & _ & _ & Hr).
      rewrite !(rounds_step _ _ _ _ _ _ Hne Hr).
      rewrite (IH _ (winners ++ [Some w])), (IH _ ([] ++ [Some w])).
      cbn [fst snd]. rewrite <- app_assoc. reflexivity.
Qed.

(** [n + m] rounds are [n] rounds followed by [m] rounds on what the first
    [n] leave. *)
Lemma rounds_add (n m : nat) :
  forall pool winners rng,
    rounds (n + m) pool winners rng
    = rounds m (rounds n pool winners rng).1.2
        (rounds n pool winners rng).1.1 (rounds n pool winners rng).2.
Proof.
  induction n as [| n IH]; intros pool winners rng; [ reflexivity | ].
  destruct (decide (pool = [])) as [-> | Hne].
  - rewrite !rounds_nil. cbn [fst snd]. rewrite ?rounds_nil. reflexivity.
  - destruct (round_inv pool (rng O) Hne) as (w & l1 & l2 & _ & _ & Hr).
    change (S n + m)%nat with (S (n + m)).
    rewrite !(rounds_step _ _ _ _ _ _ Hne Hr). apply IH.
Qed.

(** Each round that runs makes one call of [Math.random()]. *)
Lemma rounds_source (n : nat) :
  forall pool winners rng k,
    (rounds n pool winners rng).2 k = rng (Nat.min n (length pool) + k)%nat.
Proof.
  induction n as [| n IH]; intros pool winners rng k; [ reflexivity | ].
  destruct (decide (pool = [])) as [-> | Hne].
  - rewrite rounds_nil. reflexivity.
  - destruct (round_inv pool (rng O) Hne) as (w & l1 & l2 & Hp & _ & Hr).
    rewrite (rounds_step _ _ _ _ _ _ Hne Hr), IH.
    rewrite Hp, !length_app. cbn [length]. f_equal. lia.
Qed.

(** X1.  A selection of at least as many winners as there are candidates
    returns every candidate of the input, each position once, in the order
    drawn. *)
Theorem exhaustive_selection_is_permutation (guides : list Guide)
    (count : Z) (rng : JS.Rng) :
  Z.of_nat (length guides) <= count ->
  Permutation (Some <$> guides) (weightedRandomSelection guides count rng).
Proof.
  intros Hc.
  pose proof (rounds_length (Z.to_nat count) guides [] rng) as Hlen.
  destruct (rounds_picks (Z.to_nat count) guides [] rng)
    as (picked & Hw & Hperm).
  unfold weightedRandomSelection. cbn [app] in Hw. rewrite Hw in Hlen |- *.
  rewrite length_fmap in Hlen. cbn [length] in Hlen.
  pose proof (Permutation_length Hperm) as Hl. rewrite length_app in Hl.
  assert (Hrest : (rounds (Z.to_nat count) guides [] rng).1.2 = []).
  { apply nil_length_inv. lia. }
  rewrite Hrest, app_nil_r in Hperm.
  apply fmap_Permutation. exact Hperm.
Qed.

Lemma exhaustive_selection_is_permutation_witness :
  Z.of_nat (length [gA; gB; gC]) <= 5
  /\ Permutation (Some <$> [gA; gB; gC])
       (weightedRandomSelection [gA; gB; gC] 5 (fun _ => 1 # 2)).
Proof.
  split; [ vm_compute; discriminate | ].
  apply (exhaustive_selection_is_permutation [gA; gB; gC] 5).
  vm_compute. discriminate.
Defined.

(** X2.  A selection of [a + b] winners is a selection of [a] winners
    followed by a selection of [b] winners among the candidates the first
    leaves, with the random source the first leaves: the first [a] winners
    do not depend on how many more are asked for. *)
Theorem selection_splits (guides : list Guide) (a b : Z) (rng : JS.Rng) :
  0 <= a -> 0 <= b ->
  weightedRandomSelection guides (a + b) rng
  = weightedRandomSelection guides a rng
    ++ weightedRandomSelection (rounds (Z.to_nat a) guides [] rng).1.2 b
         (rounds (Z.to_nat a) guides [] rng).2.
Proof.
  intros Ha Hb. unfold weightedRandomSelection.
  rewrite Z2Nat.inj_add by assumption.
  rewrite rounds_add, rounds_winners_acc. reflexivity.
Qed.

Lemma selection_splits_witness :
  weightedRandomSelection [gA; gB; gC] (1 + 1) (fun _ => 1 # 2)
  = weightedRandomSelection [gA; gB; gC] 1 (fun _ => 1 # 2)
    ++ weightedRandomSelection
         (rounds (Z.to_nat 1) [gA; gB; gC] [] (fun _ => 1 # 2)).1.2 1
         (rounds (Z.to_nat 1) [gA; gB; gC] [] (fun _ => 1 # 2)).2.
Proof.
  apply (selection_splits [gA; gB; gC] 1 1 (fun _ => 1 # 2)); lia.
Defined.

End SelectorComposition.

Section SelectorDraws.

Import Lottery Partition.

Lemma totalWeight_zero (l : list Guide) :
  Forall (fun c => totalTickets c = 0) l -> totalWeight l = 0.
Proof.
  induction 1 as [| c l Hc _ IH]; [ reflexivity | ].
  rewrite totalWeight_cons, Hc, IH. reflexivity.
Qed.

(** A value of [random] above 0 passes the candidates of weight 0. *)
Lemma scan_skips_zero (before : list Guide) :
  Forall (fun c => totalTickets c = 0) before ->
  forall r j rest,
    (0 < r)%Q ->
    scan r j (before ++ rest) = scan r (j + length before) rest.
Proof.
  induction 1 as [| z before Hz _ IH]; intros r j rest Hr.
  - cbn [app length]. rewrite Nat.add_0_r. reflexivity.
  - cbn [app scan length]. rewrite Hz.
    destruct (Qle_bool_cases (r - inject_Z 0) 0) as [[_ Hc] | [-> _]].
    + change (inject_Z 0) with 0%Q in Hc. lra.
    + rewrite (scan_ext _ (r - inject_Z 0)%Q r (S j))
        by (change (inject_Z 0) with 0%Q; ring).
      rewrite (IH r (S j) rest Hr). f_equal. lia.
Qed.

(** X3.  The index that the scan selects does not go down when the value of
    [random] goes up, for weights that are not negative and sum to less than
    2^53 (the range in which the source's arithmetic on doubles is the exact
    arithmetic of this file) and values up to the total weight: the
    candidates' shares of [[0, totalWeight]] lie in pool order.  The same
    holds of the scan on doubles, from doubles that are those values. *)
Theorem selectedIndex_monotone (pool : list Guide) (r r' : Q) :
  Forall (fun g => 0 <= totalTickets g) pool ->
  totalWeight pool < 2 ^ 53 ->
  pool <> [] ->
  (r <= r')%Q ->
  (r' <= inject_Z (totalWeight pool))%Q ->
  (selectedIndex r pool <= selectedIndex r' pool)%nat
  /\ (forall x x',
        Double.represents x r -> Double.represents x' r' ->
        (Double.selectedIndex x pool <= Double.selectedIndex x' pool)%nat).
Proof.
  intros Hnn Hb Hne Hrr Hr'.
  assert (Hr53 : (r' < inject_Z (2 ^ 53))%Q).
  { rewrite Zlt_Qlt in Hb. lra. }
  assert (Hmono : (selectedIndex r pool <= selectedIndex r' pool)%nat).
  { destruct (scan_stops pool Hnn r O Hne ltac:(lra))
      as (i & Hs & _ & Hup & Hlo).
    destruct (scan_stops pool Hnn r' O Hne Hr')
      as (i' & Hs' & _ & Hup' & Hlo').
    unfold selectedIndex. rewrite Hs, Hs'. cbn [default Nat.add].
    destruct (Nat.le_gt_cases i i') as [H | H]; [ exact H | exfalso ].
    specialize (Hlo ltac:(lia)).
    pose proof (prefixWeight_mono pool Hnn (S i') i ltac:(lia)) as Hm.
    rewrite Zle_Qle in Hm. lra. }
  split; [ exact Hmono | ].
  intros x x' Hx Hx'.
  rewrite (double_selectedIndex_exact pool x r Hnn Hb Hx ltac:(lra)).
  rewrite (double_selectedIndex_exact pool x' r' Hnn Hb Hx' Hr53).
  exact Hmono.
Qed.

Lemma selectedIndex_monotone_witness :
  (Double.selectedIndex (S754_finite false 4503599627370496 (-53))
     [gA; gB; gC]
   <= Double.selectedIndex (S754_finite false 7881299347898368 (-51))
        [gA; gB; gC])%nat.
Proof.
  assert (Hnn : Forall (fun g => 0 <= totalTickets g) [gA; gB; gC])
    by (repeat constructor; vm_compute; discriminate).
  assert (Hb : totalWeight [gA; gB; gC] < 2 ^ 53) by (vm_compute; reflexivity).
  assert (Hne : [gA; gB; gC] <> []) by discriminate.
  assert (Hrr : (1 # 2 <= 7 # 2)%Q) by (vm_compute; discriminate).
  assert (Hr' : (7 # 2 <= inject_Z (totalWeight [gA; gB; gC]))%Q)
    by (vm_compute; discriminate).
  apply (proj2 (selectedIndex_monotone [gA; gB; gC] (1 # 2) (7 # 2)
                  Hnn Hb Hne Hrr Hr')).
  - split; vm_compute; reflexivity.
  - split; vm_compute; reflexivity.
Defined.

(** X4.  A candidate that holds all the tickets of the pool wins the round
    for every value of [Math.random()] strictly between 0 and 1, wherever it
    stands in the pool; the others stay in the pool in their order. *)
Theorem sole_ticket_holder_wins (before after : list Guide) (g : Guide)
    (u : Q) :
  Forall (fun c => totalTickets c = 0) before ->
  Forall (fun c => totalTickets c = 0) after ->
  0 < totalTickets g ->
  (0 < u)%Q -> (u < 1)%Q ->
  round (before ++ g :: after) u = (Some g, before ++ after).
Proof.
  intros Hb Ha Hg Hu0 Hu1.
  assert (HW : totalWeight (before ++ g :: after) = totalTickets g).
  { rewrite totalWeight_app, totalWeight_cons,
      (totalWeight_zero _ Hb), (totalWeight_zero _ Ha). lia. }
  assert (Hgq : (0 < inject_Z (totalTickets g))%Q).
  { rewrite Zlt_Qlt in Hg. exact Hg. }
  set (r := (u * inject_Z (totalWeight (before ++ g :: after)))%Q).
  assert (Hr0 : (0 < r)%Q).
  { unfold r. rewrite HW. apply Qmult_lt_0_compat; assumption. }
  assert (Hr1 : (r <= inject_Z (totalTickets g))%Q).
  { unfold r. rewrite HW.
    pose proof (Qmult_lt_compat_r u 1 _ Hgq Hu1) as Hlt.
    rewrite Qmult_1_l in Hlt. apply Qlt_le_weak. exact Hlt. }
  assert (Hsel : selectedIndex r (before ++ g :: after) = length before).
  { unfold selectedIndex.
    rewrite (scan_skips_zero before Hb r O (g :: after) Hr0).
    cbn [scan Nat.add].
    destruct (Qle_bool_cases (r - inject_Z (totalTickets g)) 0)
      as [[-> _] | [_ Hc]]; [ reflexivity | lra ]. }
  destruct (round_inv (before ++ g :: after) u ltac:(destruct before; discriminate))
    as (w & l1 & l2 & Hp & Hl & Hround).
  fold r in Hl. rewrite Hsel in Hl.
  apply app_inj_1 in Hp; [ | symmetry; exact Hl ].
  destruct Hp as [-> [= -> ->]]. exact Hround.
Qed.

Lemma sole_ticket_holder_wins_witness :
  round ([gZ] ++ gC :: [gZ]) (1 # 3) = (Some gC, [gZ] ++ [gZ]).
Proof.
  apply (sole_ticket_holder_wins [gZ] [gZ] gC (1 # 3)).
  - repeat constructor.
  - repeat constructor.
  - vm_compute. reflexivity.
  - vm_compute. reflexivity.
  - vm_compute. reflexivity.
Defined.

End SelectorDraws.

(** ** Further properties of the call on a store *)

Section StoreRuns.

Import Ref.

(** The whole run of a call on an array of candidates: the references of the
    copy and of the winner list, and the state that is left. *)
Lemma call_run_typed (guides : loc) (count : Z) (s : State)
    (gs : list Guide) :
  store s !! guides = Some (Some <$> gs) ->
  exists availableGuides winners,
    availableGuides <> winners
    /\ weightedRandomSelection guides count s
       = (Some winners,
          mkState
            (<[winners :=
                 (Lottery.rounds (Z.to_nat count) gs [] (random_source s)).1.1]>
               (<[availableGuides :=
                    Some <$> (Lottery.rounds (Z.to_nat count) gs []
                                (random_source s)).1.2]>
                  (<[winners := []]>
                     (<[availableGuides := Some <$> gs]> (store s)))))
            (Lottery.rounds (Z.to_nat count) gs [] (random_source s)).2).
Proof.
  intros Hg. unfold weightedRandomSelection.
  rewrite (bind_returns _ _ _ _ _ (get_run _ _ _ Hg)).
  rewrite bind_run. cbn [alloc].
  set (l1 := fresh (dom (store s))).
  set (s1 := mkState (<[l1 := Some <$> gs]> (store s)) (random_source s)).
  rewrite bind_run. cbn [alloc].
  set (l2 := fresh (dom (store s1))).
  set (s2 := mkState (<[l2 := []]> (store s1)) (random_source s1)).
  assert (H1 : store s1 !! l1 = Some (Some <$> gs))
    by (unfold s1; cbn [store]; apply lookup_insert_eq).
  assert (H12 : l1 <> l2).
  { intros E. pose proof (fresh_unused s1) as Hf. fold l2 in Hf.
    rewrite <- E, H1 in Hf. discriminate. }
  assert (Ha : store s2 !! l1 = Some (Some <$> gs)).
  { unfold s2. cbn [store].
    rewrite lookup_insert_ne by (intros E; apply H12; symmetry; exact E).
    exact H1. }
  assert (Hw : store s2 !! l2 = Some [])
    by (unfold s2; cbn [store]; apply lookup_insert_eq).
  rewrite (bind_returns _ _ _ _ _
             (rounds_typed (Z.to_nat count) s2 l1 l2 gs [] H12 Ha Hw)).
  exists l1, l2. split; [ exact H12 | reflexivity ].
Qed.

(** X5.  A call on an array of candidates makes [min count (length guides)]
    calls of [Math.random()], one for each winner, and no other: the random
    source it leaves is the one it found, that many values further on. *)
Theorem call_draws_once_per_winner (guides : loc) (count : Z) (s : State)
    (gs : list Guide) :
  store s !! guides = Some (Some <$> gs) ->
  forall k,
    random_source (weightedRandomSelection guides count s).2 k
    = random_source s (Nat.min (Z.to_nat count) (length gs) + k)%nat.
Proof.
  intros Hg k.
  destruct (call_run_typed guides count s gs Hg) as (l1 & l2 & _ & ->).
  cbn [snd random_source]. apply rounds_source.
Qed.

Lemma call_draws_once_per_winner_witness :
  random_source
    (weightedRandomSelection 7%nat 2
       (mkState {[ 7%nat := Some <$> [gA; gB; gC] ]}
          (fun k => Z.of_nat k # 8))).2 O
  = (fun k => Z.of_nat k # 8)
      (Nat.min (Z.to_nat 2) (length [gA; gB; gC]) + 0)%nat.
Proof.
  apply (call_draws_once_per_winner 7%nat 2
           (mkState {[ 7%nat := Some <$> [gA; gB; gC] ]}
              (fun k => Z.of_nat k # 8)) [gA; gB; gC]).
  vm_compute. reflexivity.
Defined.

(** Summing the tickets of an array that holds [undefined] throws, and
    leaves the state as it is. *)
Lemma reduce_undefined (arr : list JsVal) :
  In None arr ->
  forall acc s,
    reduce (fun sum guide => t ← totalTickets_of guide; ret (sum + t)) acc
      arr s
    = (None, s).
Proof.
  induction arr as [| v arr IH]; intros Hin acc s; [ destruct Hin | ].
  cbn [reduce]. rewrite bind_run.
  destruct v as [g |].
  - cbn. apply IH. destruct Hin as [E | Hin]; [ discriminate | exact Hin ].
  - reflexivity.
Qed.

(** X6.  On an array that holds [undefined] in some place, a call with a
    count of 1 or more throws when it sums the tickets, before any call of
    [Math.random()]; a call with a count of 0 or less reads no element and
    returns a new empty winner list. *)
Theorem undefined_element_throws (guides : loc) (count : Z) (s : State)
    (arr : list JsVal) :
  store s !! guides = Some arr ->
  In None arr ->
  (1 <= count ->
   (weightedRandomSelection guides count s).1 = None
   /\ random_source (weightedRandomSelection guides count s).2
      = random_source s)
  /\ (count <= 0 ->
      exists winners,
        (weightedRandomSelection guides count s).1 = Some winners
        /\ store s !! winners = None
        /\ store (weightedRandomSelection guides count s).2 !! winners
           = Some []).
Proof.
  intros Hg Hin. unfold weightedRandomSelection.
  rewrite (bind_returns _ _ _ _ _ (get_run _ _ _ Hg)).
  rewrite bind_run. cbn [alloc].
  set (l1 := fresh (dom (store s))).
  set (s1 := mkState (<[l1 := arr]> (store s)) (random_source s)).
  rewrite bind_run. cbn [alloc].
  set (l2 := fresh (dom (store s1))).
  set (s2 := mkState (<[l2 := []]> (store s1)) (random_source s1)).
  assert (H1 : store s1 !! l1 = Some arr)
    by (unfold s1; cbn [store]; apply lookup_insert_eq).
  assert (H12 : l1 <> l2).
  { intros E. pose proof (fresh_unused s1) as Hf. fold l2 in Hf.
    rewrite <- E, H1 in Hf. discriminate. }
  assert (Ha : store s2 !! l1 = Some arr).
  { unfold s2. cbn [store].
    rewrite lookup_insert_ne by (intros E; apply H12; symmetry; exact E).
    exact H1. }
  split.
  - intros Hc.
    destruct (Z.to_nat count) as [| n] eqn:En; [ lia | ].
    assert (Hlen : (0 <? length arr)%nat = true).
    { destruct arr; [ destruct Hin | reflexivity ]. }
    assert (Hr : rounds (S n) l1 l2 s2 = (None, s2)).
    { cbn [rounds].
      rewrite (bind_returns _ _ _ _ _ (get_run _ _ _ Ha)), Hlen.
      rewrite bind_run. unfold totalWeight.
      rewrite (bind_returns _ _ _ _ _ (get_run _ _ _ Ha)).
      rewrite (reduce_undefined arr Hin). reflexivity. }
    assert (Hrun : (rounds (S n) l1 l2 ≫= fun _ => ret l2) s2 = (None, s2))
      by (rewrite bind_run, Hr; reflexivity).
    rewrite Hrun. split; reflexivity.
  - intros Hc.
    assert (En : Z.to_nat count = O) by lia.
    rewrite En. rewrite bind_run. cbn [rounds ret fst snd].
    exists l2. split; [ reflexivity | ]. split.
    + pose proof (fresh_unused s1) as Hf. fold l2 in Hf.
      unfold s1 in Hf. cbn [store] in Hf.
      destruct (decide (l1 = l2)) as [E | N]; [ contradiction | ].
      rewrite lookup_insert_ne in Hf by exact N. exact Hf.
    + unfold s2. cbn [store]. apply lookup_insert_eq.
Qed.

Lemma undefined_element_throws_witness :
  (weightedRandomSelection 7%nat 1
     (mkState {[ 7%nat := [Some gA; None] ]} (fun _ => 1 # 2))).1 = None.
Proof.
  assert (Hg : store (mkState {[ 7%nat := [Some gA; None] ]} (fun _ => 1 # 2))
                 !! 7%nat = Some [Some gA; None]) by (vm_compute; reflexivity).
  assert (Hin : In None [Some gA; None]) by (right; left; reflexivity).
  assert (Hc : 1 <= 1) by lia.
  exact (proj1 (proj1 (undefined_element_throws 7%nat 1 _ _ Hg Hin) Hc)).
Defined.

End StoreRuns.

(** ** The reveal sequence *)

Section RevealSequence.

Import Component.

Lemma getCountdownDuration_cases (category : option PrizeCategory) :
  In (getCountdownDuration category) [7; 10; 15; 20; 60].
Proof.
  unfold getCountdownDuration. destruct category as [c |]; [ | simpl; tauto ].
  repeat (destruct (String.eqb (category_id c) _); [ simpl; tauto | ]).
  simpl; tauto.
Qed.

Lemma getCountdownDuration_pos (category : option PrizeCategory) :
  7 <= getCountdownDuration category <= 60.
Proof.
  pose proof (getCountdownDuration_cases category) as H. simpl in H.
  intuition lia.
Qed.

Lemma setCountdown_same (v : View) : setCountdown (countdown v) v = v.
Proof. destruct v. reflexivity. Qed.

(** While [timeLeft] stays above 0 the interval sets [countdown] and
    nothing else. *)
Lemma ticks_before_reveal (i : nat) (ws : list (option Guide))
    (rest : list Timer) (d : Z) (k : nat) :
  forall c,
    timers c = CountdownInterval d i ws :: rest ->
    countdown (view c) = d ->
    Z.of_nat k < d ->
    Nat.iter k (fire 0) c
    = mkConfig (setCountdown (d - Z.of_nat k) (view c))
        (CountdownInterval (d - Z.of_nat k) i ws :: rest)
        (onComplete_calls c).
Proof.
  induction k as [| k IH]; intros c Ht Hd Hk.
  - change (Nat.iter 0 (fire 0) c) with c.
    change (Z.of_nat 0) with 0. rewrite Z.sub_0_r.
    rewrite <- Hd at 1. rewrite setCountdown_same, <- Ht.
    destruct c; reflexivity.
  - rewrite Nat.iter_succ, (IH c Ht Hd ltac:(lia)).
    unfold fire. cbn [timers lookup list_lookup view onComplete_calls].
    unfold onInterval.
    replace (d - Z.of_nat k - 1) with (d - Z.of_nat (S k)) by lia.
    destruct (Z.leb_spec (d - Z.of_nat (S k)) 0) as [H | H]; [ lia | ].
    reflexivity.
Qed.

(** The tick that brings [timeLeft] to 0 reveals the winner. *)
Lemma ticks_until_reveal (i : nat) (ws : list (option Guide))
    (rest : list Timer) (d : Z) (c : Config) :
  timers c = CountdownInterval d i ws :: rest ->
  countdown (view c) = d ->
  1 <= d ->
  Nat.iter (Z.to_nat d) (fire 0) c
  = mkConfig
      (setCurrentWinner (default None (ws !! i))
         (setPhase Revealing (setCountdown 0 (view c))))
      (RevealTimeout i ws :: rest) (onComplete_calls c).
Proof.
  intros Ht Hd H1.
  replace (Z.to_nat d) with (S (Z.to_nat (d - 1))) by lia.
  rewrite Nat.iter_succ.
  rewrite (ticks_before_reveal i ws rest d (Z.to_nat (d - 1)) c Ht Hd)
    by lia.
  unfold fire. cbn [timers lookup list_lookup view onComplete_calls].
  unfold onInterval.
  replace (d - Z.of_nat (Z.to_nat (d - 1)) - 1) with 0 by lia.
  reflexivity.
Qed.

(** One turn of the winner at [i]: where the countdown started by
    [startCountdownForWinner] ends. *)
Lemma turn_after_start (prizeCategory : option PrizeCategory)
    (ws : list (option Guide)) (i : nat) (c : Config) :
  timers c = [] ->
  turn prizeCategory (startCountdownForWinner prizeCategory ws i c)
  = if (S i =? length ws)%nat then
      mkConfig
        (mkView Complete 0 i (selectedWinners (view c))
           (default None (ws !! i)))
        [CompleteTimeout ws] (onComplete_calls c)
    else
      mkConfig
        (mkView Waiting 0 i (selectedWinners (view c))
           (default None (ws !! i)))
        [] (onComplete_calls c).
Proof.
  intros Ht. unfold turn.
  pose proof (getCountdownDuration_pos prizeCategory) as Hd.
  rewrite (ticks_until_reveal i ws [] (getCountdownDuration prizeCategory));
    [ | unfold startCountdownForWinner; cbn [timers]; rewrite Ht; reflexivity
      | reflexivity | lia ].
  unfold fire. cbn [timers lookup list_lookup view onComplete_calls].
  unfold onRevealTimeout.
  destruct (Nat.eqb_spec (S i) (length ws)) as [E | N].
  - destruct (Z.eqb_spec (Z.of_nat i) (Z.of_nat (length ws) - 1)) as [_ | N];
      [ reflexivity | lia ].
  - destruct (Z.eqb_spec (Z.of_nat i) (Z.of_nat (length ws) - 1)) as [E | _];
      [ lia | reflexivity ].
Qed.

End RevealSequence.

Section RevealProperties.

Import Component.

(** X7.  The countdown lasts 7, 10, 15, 20 or 60 seconds, so between 7 and
    60, for every prize category; it lasts 15 seconds without a category and
    for every category whose id is not one of [iron-box], [soundbars],
    [tablets], [refrigerator]. *)
Theorem countdown_duration_bounds (category : option PrizeCategory) :
  In (getCountdownDuration category) [7; 10; 15; 20; 60]
  /\ 7 <= getCountdownDuration category <= 60
  /\ (category = None -> getCountdownDuration category = 15)
  /\ (forall c, category = Some c ->
        ~ In (category_id c)
            ["iron-box"; "soundbars"; "tablets"; "refrigerator"]%string ->
        getCountdownDuration category = 15).
Proof.
  split; [ apply getCountdownDuration_cases | ].
  split; [ apply getCountdownDuration_pos | ].
  split; [ intros ->; reflexivity | ].
  intros c -> Hnot. unfold getCountdownDuration.
  repeat match goal with
         | |- context [String.eqb ?a ?b] =>
             destruct (String.eqb_spec a b) as [E | _];
             [ try reflexivity; exfalso; apply Hnot; rewrite E; simpl; tauto | ]
         end.
  reflexivity.
Qed.

(** X8.  A countdown started by [startCountdownForWinner] while no other
    timer is pending shows, after [k] ticks, the duration less [k], stays in
    phase [countdown] and changes nothing else as long as that is above 0;
    the tick that reaches 0 clears the interval, sets phase [revealing] and
    the winner at [winnerIndex] of the list the callback holds, and leaves
    the 3000 ms timeout pending. *)
Theorem countdown_reveals_after_duration
    (prizeCategory : option PrizeCategory) (ws : list (option Guide))
    (i : nat) (c0 : Config) :
  timers c0 = [] ->
  (forall k,
     Z.of_nat k < getCountdownDuration prizeCategory ->
     Nat.iter k (fire 0) (startCountdownForWinner prizeCategory ws i c0)
     = mkConfig
         (mkView Countdown (getCountdownDuration prizeCategory - Z.of_nat k)
            i (selectedWinners (view c0)) (currentWinner (view c0)))
         [CountdownInterval (getCountdownDuration prizeCategory - Z.of_nat k)
            i ws]
         (onComplete_calls c0))
  /\ Nat.iter (Z.to_nat (getCountdownDuration prizeCategory)) (fire 0)
       (startCountdownForWinner prizeCategory ws i c0)
     = mkConfig
         (mkView Revealing 0 i (selectedWinners (view c0))
            (default None (ws !! i)))
         [RevealTimeout i ws] (onComplete_calls c0).
Proof.
  intros Ht.
  pose proof (getCountdownDuration_pos prizeCategory) as Hd.
  assert (Hs : timers (startCountdownForWinner prizeCategory ws i c0)
               = [CountdownInterval (getCountdownDuration prizeCategory) i ws]).
  { unfold startCountdownForWinner. cbn [timers]. rewrite Ht. reflexivity. }
  split.
  - intros k Hk.
    rewrite (ticks_before_reveal i ws [] _ k _ Hs eq_refl Hk). reflexivity.
  - rewrite (ticks_until_reveal i ws [] _ _ Hs eq_refl ltac:(lia)).
    reflexivity.
Qed.

Lemma countdown_reveals_after_duration_witness :
  Nat.iter (Z.to_nat (getCountdownDuration None)) (fire 0)
    (startCountdownForWinner None [Some gA; Some gB] 1
       (mkConfig initialView [] []))
  = mkConfig (mkView Revealing 0 1 [] (Some gB))
      [RevealTimeout 1 [Some gA; Some gB]] [].
Proof.
  apply (countdown_reveals_after_duration None [Some gA; Some gB] 1
           (mkConfig initialView [] [])).
  reflexivity.
Defined.

(** X9.  A winner's turn started while no other timer is pending ends in one
    of two ways.  If the winner is the last of the list the callbacks hold,
    the phase is [complete], the 2000 ms timeout is pending, and when it
    fires [onComplete] is called once, with that list, and nothing is
    pending.  Otherwise the phase is [waiting] and no timer is pending:
    nothing happens until a click. *)
Theorem turn_ends_waiting_or_complete
    (prizeCategory : option PrizeCategory) (ws : list (option Guide))
    (i : nat) (c0 : Config) :
  timers c0 = [] ->
  (S i = length ws ->
   turn prizeCategory (startCountdownForWinner prizeCategory ws i c0)
   = mkConfig
       (mkView Complete 0 i (selectedWinners (view c0))
          (default None (ws !! i)))
       [CompleteTimeout ws] (onComplete_calls c0)
   /\ fire 0
        (turn prizeCategory (startCountdownForWinner prizeCategory ws i c0))
      = mkConfig
          (mkView Complete 0 i (selectedWinners (view c0))
             (default None (ws !! i)))
          [] (onComplete_calls c0 ++ [ws]))
  /\ (S i <> length ws ->
      turn prizeCategory (startCountdownForWinner prizeCategory ws i c0)
      = mkConfig
          (mkView Waiting 0 i (selectedWinners (view c0))
             (default None (ws !! i)))
          [] (onComplete_calls c0)
      /\ forall k,
           fire k
             (turn prizeCategory
                (startCountdownForWinner prizeCategory ws i c0))
           = turn prizeCategory
               (startCountdownForWinner prizeCategory ws i c0)).
Proof.
  intros Ht. rewrite (turn_after_start prizeCategory ws i c0 Ht).
  split.
  - intros E. apply Nat.eqb_eq in E. rewrite E.
    split; reflexivity.
  - intros N. apply Nat.eqb_neq in N. rewrite N.
    split; [ reflexivity | ]. intros k. reflexivity.
Qed.

Lemma turn_ends_waiting_or_complete_witness :
  fire 0
    (turn None
       (startCountdownForWinner None [Some gA; Some gB] 1
          (mkConfig initialView [] [])))
  = mkConfig (mkView Complete 0 1 [] (Some gB)) []
      ([] ++ [[Some gA; Some gB]]).
Proof.
  assert (Ht : timers (mkConfig initialView [] []) = []) by reflexivity.
  assert (El : (2 = length [Some gA; Some gB])%nat) by reflexivity.
  exact (proj2 (proj1 (turn_ends_waiting_or_complete None
                         [Some gA; Some gB] 1 _ Ht) El)).
Defined.

End RevealProperties.

Section Presentation.

Import Component.




(** X11.  The effect stores the winners it selects in [selectedWinners],
    and the countdown it starts reads the list that [selectedWinners] held in
    the render that ran the effect.  After the turn of that countdown the
    winner shown is element 0 of that earlier list, and the phase is
    [complete] exactly when that earlier list has one element.  When that
    earlier list is empty, as in the first render, no winner is shown, the
    phase is [waiting], no button is shown, no timer is pending and
    [onComplete] has not been called. *)
Theorem effect_countdown_reads_render_winners (guides : list Guide)
    (winnerCount : Z) (prizeCategory : option PrizeCategory) (c : Config)
    (rng : JS.Rng) :
  guides <> [] ->
  timers c = [] ->
  selectedWinners
    (view (turn prizeCategory
             (runEffect true guides winnerCount prizeCategory c rng).1))
  = Lottery.weightedRandomSelection guides winnerCount rng
  /\ currentWinner
       (view (turn prizeCategory
                (runEffect true guides winnerCount prizeCategory c rng).1))
     = default None (selectedWinners (view c) !! O)
  /\ (phase
        (view (turn prizeCategory
                 (runEffect true guides winnerCount prizeCategory c rng).1))
      = Complete
      <-> length (selectedWinners (view c)) = 1%nat)
  /\ (selectedWinners (view c) = [] ->
      turn prizeCategory
        (runEffect true guides winnerCount prizeCategory c rng).1
      = mkConfig
          (mkView Waiting 0 O
             (Lottery.weightedRandomSelection guides winnerCount rng) None)
          [] (onComplete_calls c)
      /\ nextButtonShown
           (view (turn prizeCategory
                    (runEffect true guides winnerCount prizeCategory c rng).1))
         = false).
Proof.
  intros Hne Ht.
  assert (Hrun : turn prizeCategory
                   (runEffect true guides winnerCount prizeCategory c rng).1
                 = mkConfig
                     (mkView
                        (if (1 =? length (selectedWinners (view c)))%nat
                         then Complete else Waiting)
                        0 O
                        (Lottery.weightedRandomSelection guides winnerCount rng)
                        (default None (selectedWinners (view c) !! O)))
                     (if (1 =? length (selectedWinners (view c)))%nat
                      then [CompleteTimeout (selectedWinners (view c))]
                      else [])
                     (onComplete_calls c)).
  { unfold runEffect.
    assert (G : (length guides =? 0)%nat = false).
    { destruct guides; [ congruence | reflexivity ]. }
    rewrite G. cbn [negb orb].
    rewrite component_rounds_eq.
    unfold Lottery.weightedRandomSelection.
    destruct (Lottery.rounds (Z.to_nat winnerCount) guides [] rng)
      as [[winners rest] rng'].
    cbn [fst snd].
    rewrite turn_after_start by (cbn [timers]; exact Ht).
    cbn [view selectedWinners setCountdown setPhase setCurrentWinnerIndex
           setSelectedWinners onComplete_calls].
    destruct (1 =? length (selectedWinners (view c)))%nat; reflexivity. }
  rewrite Hrun. cbn [view selectedWinners currentWinner phase].
  split; [ reflexivity | ].
  split; [ reflexivity | ].
  split.
  - destruct (Nat.eqb_spec 1 (length (selectedWinners (view c)))) as [E | N].
    + split; [ intros _; symmetry; exact E | reflexivity ].
    + split; [ discriminate | intros E; exfalso; apply N; symmetry; exact E ].
  - intros E. rewrite E. cbn [length Nat.eqb lookup list_lookup default].
    split; reflexivity.
Qed.

Lemma effect_countdown_reads_render_winners_witness :
  currentWinner
    (view (turn None
             (runEffect true [gA; gB; gC] 2 None
                (mkConfig initialView [] []) (fun _ => 1 # 2)).1))
  = default None (selectedWinners (view (mkConfig initialView [] [])) !! O).
Proof.
  assert (Hne : [gA; gB; gC] <> []) by discriminate.
  assert (Ht : timers (mkConfig initialView [] []) = []) by reflexivity.
  exact (proj1 (proj2 (effect_countdown_reads_render_winners [gA; gB; gC] 2
                         None _ (fun _ => 1 # 2) Hne Ht))).
Defined.



End Presentation.

(** ** Doubles and exact arithmetic *)

Section DoubleExamples.

(** 1 + 2^53 is 2^53 in doubles. *)
Example double_sum_rounds :
  Double.add (Double.of_Z 1) (Double.of_Z (2 ^ 53)) = Double.of_Z (2 ^ 53).
Proof. vm_compute. reflexivity. Qed.

(** 0.33333333333333337 * 3 is 1 in doubles. *)
Example double_product_rounds :
  Double.mul (S754_finite false 6004799503160662 (-54)) (Double.of_Z 3)
  = Double.of_Z 1.
Proof. vm_compute. reflexivity. Qed.

(** Above 2^53 the scan on doubles and the exact scan part: on the weights
    0, 3, 2^53, 3, 2 and [random = 2^53 + 6] the doubles stop at index 4 and
    the exact scan at index 3. *)
Example double_scan_parts_above_2_53 :
  Double.selectedIndex (Double.of_Z (2 ^ 53 + 6))
    [mkGuide 1 "a" 0; mkGuide 2 "b" 3; mkGuide 3 "c" (2 ^ 53);
     mkGuide 4 "d" 3; mkGuide 5 "e" 2] = 4%nat
  /\ Lottery.selectedIndex (inject_Z (2 ^ 53 + 6))
       [mkGuide 1 "a" 0; mkGuide 2 "b" 3; mkGuide 3 "c" (2 ^ 53);
        mkGuide 4 "d" 3; mkGuide 5 "e" 2] = 3%nat.
Proof. split; vm_compute; reflexivity. Qed.

(** On the weights 0, eight times 1, 2^53, 7 and [random = 2^53 + 8] the
    scan on doubles never stops and index 0, of weight 0, is selected; the
    exact scan stops at index 9. *)
Example double_scan_zero_weight_above_2_53 :
  Double.selectedIndex (Double.of_Z (2 ^ 53 + 8))
    (mkGuide 0 "z" 0 :: replicate 8 (mkGuide 1 "a" 1)
       ++ [mkGuide 2 "b" (2 ^ 53); mkGuide 3 "c" 7]) = 0%nat
  /\ Lottery.selectedIndex (inject_Z (2 ^ 53 + 8))
       (mkGuide 0 "z" 0 :: replicate 8 (mkGuide 1 "a" 1)
          ++ [mkGuide 2 "b" (2 ^ 53); mkGuide 3 "c" 7]) = 9%nat.
Proof. split; vm_compute; reflexivity. Qed.

(** On the weights 0, 3, 2^53, 3 the scan on doubles selects index 2 for
    [random = 2^53 + 4] and index 0 for [random = 2^53 + 6]. *)
Example double_scan_not_monotone_above_2_53 :
  Double.selectedIndex (Double.of_Z (2 ^ 53 + 4))
    [mkGuide 1 "a" 0; mkGuide 2 "b" 3; mkGuide 3 "c" (2 ^ 53);
     mkGuide 4 "d" 3] = 2%nat
  /\ Double.selectedIndex (Double.of_Z (2 ^ 53 + 6))
       [mkGuide 1 "a" 0; mkGuide 2 "b" 3; mkGuide 3 "c" (2 ^ 53);
        mkGuide 4 "d" 3] = 0%nat.
Proof. split; vm_compute; reflexivity. Qed.

(** Where the product [Math.random() * totalWeight] rounds, the round on
    doubles and the round on exact numbers take different winners: with
    three candidates of weight 1 and [Math.random()] returning
    0.33333333333333337 the product is 1 on doubles. *)
Example double_round_product_rounds :
  Double.round [gA; gB; mkGuide 3 "C" 1]
    (S754_finite false 6004799503160662 (-54))
  = (Some gA, [gB; mkGuide 3 "C" 1])
  /\ Lottery.round [gA; gB; mkGuide 3 "C" 1] (6004799503160662 # 2 ^ 54)
     = (Some gB, [gA; mkGuide 3 "C" 1]).
Proof. split; vm_compute; reflexivity. Qed.

(** The draws at which the scan and the claims part are exact on doubles:
    1/2 of a total of 2 is 1 and stops at index 0, and 0 of a total of 1
    stops at index 0, on a candidate of weight 0. *)
Example double_round_at_boundaries :
  Double.round [gA; gB] (S754_finite false 4503599627370496 (-53))
  = (Some gA, [gB])
  /\ Double.round [gZ; gB] (S754_zero false) = (Some gZ, [gB]).
Proof. split; vm_compute; reflexivity. Qed.

End DoubleExamples.
